(** * filesystem_utils.h: natural path ordering and directory listing

    A shallow embedding of [src/filesystem_utils.h] (the non-Windows build,
    where [path_t] is [std::string]) together with the properties of its
    natural-order comparator, of the directory lister built on it and of the
    two extension-splitting helpers.

    Conventions of the embedding:
    - a [std::string] is a [string]; a [char] is an [ascii], and its value as
      an [int] is the sign-extended byte ([char] is signed on the x86-64
      System V ABI the header is built for);
    - [std::isdigit] and [std::toupper] are the "C"-locale functions of
      <cctype> as the GNU C library has them, also on the negative values
      that the bytes 128..255 have as [char];
    - [std::istringstream], [operator>>(int&)] and [std::getline] follow
      ISO C++11 [istream.formatted.arithmetic], [facet.num.get.virtuals] and
      [string.io];
    - [std::sort] and the directory stream of <dirent.h> are collaborators of
      the header: they are arguments of [list_directory].  What is proved of
      the lister holds for every [std::sort] that meets the contract of
      [alg.sort] (the range is rearranged into non-descending order,
      stability is not promised); the implementation of GNU libstdc++ is
      given in [Libstdcxx] to run the lister with. *)

From Stdlib Require Import ZArith Bool List Ascii String Lia.
From Stdlib Require Import Permutation Sorted.
Import ListNotations.

Local Open Scope string_scope.
Local Open Scope Z_scope.

(** ** Characters and the <cctype> classifiers *)

(** [typedef std::string path_t;] *)
Definition path_t : Type := string.

(** The value of a [char] converted to [int]: bytes 128..255 are negative. *)
Definition int_of_char (c : ascii) : Z :=
  let n := Z.of_N (N_of_ascii c) in
  if n <? 128 then n else n - 256.

(** [std::isdigit(int)]: true exactly on '0'..'9'. *)
Definition isdigit (c : Z) : bool := (48 <=? c) && (c <=? 57).

(** [std::toupper(int)] in the "C" locale: 'a'..'z' go to 'A'..'Z'.  The
    table of the GNU C library is indexed from -128: a negative [char]
    value -128..-2 is answered with the byte it stands for, 128..254, while
    -1 is [EOF] and stays -1.  Every other value is returned unchanged. *)
Definition toupper (c : Z) : Z :=
  if (97 <=? c) && (c <=? 122) then c - 32
  else if (-128 <=? c) && (c <? -1) then c + 256
  else c.

(** ** The [std::string] members the header uses *)

(** [s.empty()] *)
Definition empty (s : string) : bool :=
  match s with
  | EmptyString => true
  | String _ _ => false
  end.

(** [s[0]]; on an empty string [s[s.size()]] is the terminating NUL. *)
Definition front (s : string) : ascii :=
  match s with
  | EmptyString => zero
  | String c _ => c
  end.

(** [s.substr(pos)]: the characters from index [pos] to the end.  The member
    throws [std::out_of_range] when [pos > s.size()]; every call of the header
    has [pos <= s.size()] (see [substr_calls_in_range]). *)
Fixpoint substr (s : string) (pos : nat) : string :=
  match pos, s with
  | O, _ => s
  | S p, String _ s' => substr s' p
  | S _, EmptyString => EmptyString
  end.

(** [s.substr(0, n)]: the first [n] characters. *)
Fixpoint substr0 (s : string) (n : nat) : string :=
  match n, s with
  | S p, String c s' => String c (substr0 s' p)
  | _, _ => EmptyString
  end.

(** [s.rfind(c)]: the index of the last occurrence of [c]; [None] stands for
    [npos]. *)
Fixpoint rfind (s : string) (c : ascii) : option nat :=
  match s with
  | EmptyString => None
  | String x s' =>
      match rfind s' c with
      | Some i => Some (S i)
      | None => if Ascii.eqb x c then Some O else None
      end
  end.

(** ** String input streams *)

(** A [std::istringstream]: the characters not yet read and the two state
    bits a string stream can raise. *)
Record istringstream : Type := mk_iss {
  unread : string;
  eofbit : bool;
  failbit : bool
}.

(** [std::istringstream iss(s);] *)
Definition iss_open (s : string) : istringstream :=
  {| unread := s; eofbit := false; failbit := false |}.

(** [iss.good()] *)
Definition good (iss : istringstream) : bool :=
  negb (eofbit iss) && negb (failbit iss).

Definition INT_MAX : Z := 2147483647.

(** Stage 2 of [num_get]: accumulate the decimal digits at the front of the
    buffer.  Returns the number of digits taken, their value and the
    characters left. *)
Fixpoint scan_digits (s : string) (count : nat) (acc : Z) : nat * Z * string :=
  match s with
  | EmptyString => (count, acc, EmptyString)
  | String c s' =>
      let d := int_of_char c in
      if isdigit d then scan_digits s' (S count) (10 * acc + (d - 48))
      else (count, acc, s)
  end.

(** [iss >> i] for an [int i], on a stream in good state whose buffer does not
    start with white space or a sign (both call sites: a freshly opened
    stream on a string whose first character is a digit).  The digits are
    consumed up to the first other character; reaching the end raises
    [eofbit]; a value above [INT_MAX] is stored as [INT_MAX] and raises
    [failbit]; no digit at all stores 0 and raises [failbit]. *)
Definition extract_int (iss : istringstream) : istringstream * Z :=
  let '(count, v, rest) := scan_digits (unread iss) O 0 in
  let at_end := empty rest in
  match count with
  | O => ({| unread := rest; eofbit := at_end; failbit := true |}, 0)
  | S _ =>
      if v <=? INT_MAX
      then ({| unread := rest; eofbit := at_end; failbit := false |}, v)
      else ({| unread := rest; eofbit := at_end; failbit := true |}, INT_MAX)
  end.

Definition newline : ascii := "010"%char.

(** The characters up to the first newline, the characters after it, and
    whether a newline was met. *)
Fixpoint read_line (s : string) : string * string * bool :=
  match s with
  | EmptyString => (EmptyString, EmptyString, false)
  | String c s' =>
      if Ascii.eqb c newline then (EmptyString, s', true)
      else let '(line, rest, nl) := read_line s' in (String c line, rest, nl)
  end.

(** [std::getline(iss, str)]: when the stream is not good the sentry fails,
    [failbit] is raised and [str] keeps its value; otherwise [str] is erased
    and receives the characters up to the first newline (which is consumed
    and dropped) or up to the end (which raises [eofbit]); extracting no
    character at all raises [failbit]. *)
Definition getline (iss : istringstream) (str : string) : istringstream * string :=
  if good iss then
    let '(line, rest, nl) := read_line (unread iss) in
    ({| unread := rest;
        eofbit := negb nl;
        failbit := negb nl && empty line |}, line)
  else
    ({| unread := unread iss; eofbit := eofbit iss; failbit := true |}, str).

(** ** [compare_path_natural] *)

(** What one activation of [compare_path_natural] does: it returns a value,
    or it ends in a tail call of itself on two new strings. *)
Inductive activation : Type :=
| Return (r : bool)
| Recurse (a' b' : string).

(** The body of [compare_path_natural], lines 34-65, statement by
    statement. *)
Definition compare_path_natural_body (a b : path_t) : activation :=
  if empty a || empty b then
    Return (empty a && negb (empty b))
  else
    let charA := int_of_char (front a) in
    let charB := int_of_char (front b) in
    if isdigit charA && negb (isdigit charB) then
      Return true
    else if negb (isdigit charA) && isdigit charB then
      Return false
    else if negb (isdigit charA) && negb (isdigit charB) then
      if toupper charA =? toupper charB then
        Recurse (substr a 1) (substr b 1)
      else
        Return (toupper charA <? toupper charB)
    else
      let '(issa, ia) := extract_int (iss_open a) in
      let '(issb, ib) := extract_int (iss_open b) in
      if negb (ia =? ib) then
        Return (ia <? ib)
      else
        let '(_, anew) := getline issa EmptyString in
        let '(_, bnew) := getline issb EmptyString in
        Recurse anew bnew.

(** The recursion, bounded by a number of activations: [None] when the bound
    is used up before a value is returned. *)
Fixpoint compare_path_natural_within (calls : nat) (a b : path_t) : option bool :=
  match calls with
  | O => None
  | S calls' =>
      match compare_path_natural_body a b with
      | Return r => Some r
      | Recurse a' b' => compare_path_natural_within calls' a' b'
      end
  end.

(** [compare_path_natural]: one activation per character of [a] and one more
    always suffice ([within_compare]). *)
Definition compare_path_natural (a b : path_t) : bool :=
  match compare_path_natural_within (S (String.length a)) a b with
  | Some r => r
  | None => false
  end.

(** ** [list_directory] *)

(** A [struct dirent] as far as the header reads it. *)
Record dirent : Type := mk_dirent {
  d_name : string;
  d_type : Z
}.

(** <dirent.h> *)
Definition DT_REG : Z := 8.
Definition DT_DIR : Z := 4.

(** The directory collaborator: [opendir] answers [None] for a null
    [DIR *], and otherwise the entries that the successive calls of [readdir]
    deliver, in their order, before it answers null. *)
Definition directory_stream : Type := path_t -> option (list dirent).

(** The [while ((ent = readdir(dir)))] loop, lines 116-121: an entry whose
    type is not [DT_REG] is skipped by [continue], the name of any other is
    appended by [push_back]. *)
Fixpoint readdir_loop (dir : list dirent) (imagepaths : list path_t) : list path_t :=
  match dir with
  | [] => imagepaths
  | ent :: dir' =>
      if negb (d_type ent =? DT_REG) then readdir_loop dir' imagepaths
      else readdir_loop dir' (imagepaths ++ [d_name ent])%list
  end.

(** [list_directory], lines 105-127.  The vector passed by reference comes in
    as [imagepaths] and goes out as the second component of the result, the
    returned [int] is the first. *)
Definition list_directory
    (opendir : directory_stream)
    (std_sort : (path_t -> path_t -> bool) -> list path_t -> list path_t)
    (dirpath : path_t) (imagepaths : list path_t) : Z * list path_t :=
  let imagepaths := @nil path_t in
  match opendir dirpath with
  | None => (-1, imagepaths)
  | Some dir =>
      let imagepaths := readdir_loop dir imagepaths in
      let imagepaths := std_sort compare_path_natural imagepaths in
      (0, imagepaths)
  end.

(** The names of the entries of a directory stream that are classified as
    regular files, in enumeration order. *)
Definition regular_names (dir : list dirent) : list path_t :=
  map d_name (filter (fun ent => d_type ent =? DT_REG) dir).

(** A directory stream to run the lister on: one directory, "frames", with
    four regular files among the entries for itself, its parent and a
    subdirectory; no other path opens. *)
Definition frames_only : directory_stream :=
  fun dirpath =>
    if String.eqb dirpath "frames" then
      Some [ mk_dirent "." DT_DIR;
             mk_dirent "img2.jpg" DT_REG;
             mk_dirent "img10.jpg" DT_REG;
             mk_dirent "thumbs" DT_DIR;
             mk_dirent "img1.jpg" DT_REG;
             mk_dirent ".." DT_DIR;
             mk_dirent "IMG3.jpg" DT_REG ]
    else None.

(** ** Extension splitting *)

Definition dot : ascii := "."%char.

(** [get_file_name_without_extension], lines 130-136. *)
Definition get_file_name_without_extension (path : path_t) : path_t :=
  match rfind path dot with
  | None => path
  | Some d => substr0 path d
  end.

(** [get_file_extension], lines 138-144. *)
Definition get_file_extension (path : path_t) : path_t :=
  match rfind path dot with
  | None => EmptyString
  | Some d => substr path (d + 1)
  end.

(** ** Notions the properties are stated with *)

(** [true] when [c] occurs in [s]. *)
Fixpoint occurs (c : ascii) (s : string) : bool :=
  match s with
  | EmptyString => false
  | String x s' => Ascii.eqb x c || occurs c s'
  end.

(** The first character of [s] is a decimal digit. *)
Definition digit_leading (s : string) : bool :=
  negb (empty s) && isdigit (int_of_char (front s)).

(** The maximal leading run of decimal digits of a string, as digit values. *)
Fixpoint leading_digits (s : string) : list Z :=
  match s with
  | EmptyString => []
  | String c s' =>
      let d := int_of_char c in
      if isdigit d then (d - 48) :: leading_digits s' else []
  end.

(** The integer a sequence of decimal digits denotes. *)
Definition decimal_value (ds : list Z) : Z :=
  fold_left (fun acc d => 10 * acc + d) ds 0.

(** The integer denoted by the maximal leading digit run of [s]. *)
Definition digit_run_value (s : string) : Z :=
  decimal_value (leading_digits s).

(** The remainder of [s] after its maximal leading digit run. *)
Fixpoint after_digit_run (s : string) : string :=
  match s with
  | EmptyString => EmptyString
  | String c s' =>
      if isdigit (int_of_char c) then after_digit_run s' else s
  end.

(** A string with every character upper-cased, as [int] values: two strings
    are case permutations of each other when these agree. *)
Fixpoint upper_image (s : string) : list Z :=
  match s with
  | EmptyString => []
  | String c s' => toupper (int_of_char c) :: upper_image s'
  end.

Definition case_permutation (a b : string) : Prop :=
  upper_image a = upper_image b.

(** The requirement [alg.sorting] puts on a comparator. *)
Record strict_weak_order {A : Type} (comp : A -> A -> bool) : Prop := {
  swo_irreflexive : forall a, comp a a = false;
  swo_asymmetric : forall a b, comp a b = true -> comp b a = false;
  swo_transitive :
    forall a b c, comp a b = true -> comp b c = true -> comp a c = true;
  swo_incomparable_transitive :
    forall a b c,
      comp a b = false -> comp b a = false ->
      comp b c = false -> comp c b = false ->
      comp a c = false /\ comp c a = false
}.

(** [std::is_sorted(v.begin(), v.end(), comp)]: no element is less than its
    predecessor. *)
Fixpoint is_sorted {A : Type} (comp : A -> A -> bool) (v : list A) : bool :=
  match v with
  | [] => true
  | x :: t =>
      match t with
      | [] => true
      | y :: _ => negb (comp y x) && is_sorted comp t
      end
  end.

(** The contract of [std::sort(v.begin(), v.end(), comp)]: for a comparator
    that is a strict weak ordering, the range afterwards holds the same
    elements and is sorted with respect to [comp].  Nothing is said about
    the relative order of equivalent elements. *)
Definition std_sort_contract
    (std_sort : (path_t -> path_t -> bool) -> list path_t -> list path_t) : Prop :=
  forall comp v,
    strict_weak_order comp ->
    Permutation v (std_sort comp v) /\ is_sorted comp (std_sort comp v) = true.

(** [a] and [b] are equivalent under the ordering: neither is less. *)
Definition equivalent (a b : path_t) : Prop :=
  compare_path_natural a b = false /\ compare_path_natural b a = false.

(** An implementation of the [std::sort] contract: sorting by insertion,
    each element going in front of the first strictly greater one. *)
Fixpoint insert_before_greater {A : Type} (comp : A -> A -> bool) (x : A) (v : list A) : list A :=
  match v with
  | [] => [x]
  | y :: v' => if comp x y then x :: v else y :: insert_before_greater comp x v'
  end.

Definition insertion_sort {A : Type} (comp : A -> A -> bool) (v : list A) : list A :=
  fold_right (insert_before_greater comp) [] v.

(** The text of a line: the characters before the first newline. *)
Definition line_of (s : string) : string := fst (fst (read_line s)).

(** What the two stream statements of the digit branch leave in [anew]: the
    line after the digit run, and nothing once the run is out of range. *)
Definition rest_after_number (s : string) : string :=
  if digit_run_value s <=? INT_MAX then line_of (after_digit_run s)
  else EmptyString.

(** ** The sort key of a path *)

(** [compare_path_natural] reads each operand as a sequence of tokens: a
    number for a digit run, the upper-cased character otherwise. *)
Inductive token : Type :=
| Num (i : Z)
| Chr (u : Z).

Definition token_lt (x y : token) : bool :=
  match x, y with
  | Num i, Num j => i <? j
  | Num _, Chr _ => true
  | Chr _, Num _ => false
  | Chr u, Chr v => u <? v
  end.

Fixpoint keys_lt (k l : list token) : bool :=
  match k, l with
  | [], [] => false
  | [], _ :: _ => true
  | _ :: _, [] => false
  | x :: k', y :: l' =>
      if token_lt x y then true
      else if token_lt y x then false
      else keys_lt k' l'
  end.

(** The token the comparator takes from the front of a non-empty string, and
    the string it goes on with. *)
Definition next_token (s : string) : token * string :=
  let c := int_of_char (front s) in
  if isdigit c then
    let '(iss, i) := extract_int (iss_open s) in
    let '(_, snew) := getline iss EmptyString in
    (Num i, snew)
  else
    (Chr (toupper c), substr s 1).

Fixpoint keys_within (n : nat) (s : string) : list token :=
  match n with
  | O => []
  | S n' =>
      if empty s then []
      else let '(t, s') := next_token s in t :: keys_within n' s'
  end.

Definition keys (s : string) : list token := keys_within (String.length s) s.

(** ** The probes and the path sanitizers *)

(** <sys/stat.h>: the file-type bits of [st_mode]. *)
Definition S_IFMT : Z := 61440.   (* 0170000 *)
Definition S_IFDIR : Z := 16384.  (* 0040000 *)

(** [S_ISDIR(m)] *)
Definition S_ISDIR (m : Z) : bool := Z.land m S_IFMT =? S_IFDIR.

(** The [stat] collaborator: [None] when the call returns nonzero, otherwise
    the [st_mode] it stores. *)
Definition stat_call : Type := path_t -> option Z.

(** [path_is_directory], lines 98-103. *)
Definition path_is_directory (stat : stat_call) (path : path_t) : bool :=
  match stat path with
  | None => false
  | Some st_mode => S_ISDIR st_mode
  end.

(** The [fopen(path, "rb")] collaborator: [true] when the stream returned is
    not null. *)
Definition fopen_call : Type := path_t -> bool.

(** [filepath_is_readable], lines 179-190: a null stream answers [false];
    any other is closed again and answers [true]. *)
Definition filepath_is_readable (fopen_rb : fopen_call) (path : path_t) : bool :=
  if negb (fopen_rb path) then false else true.

(** [sanitize_filepath], lines 192-197.  The directory that
    [get_executable_directory()] returns is the argument
    [executable_directory]. *)
Definition sanitize_filepath
    (fopen_rb : fopen_call) (executable_directory : path_t)
    (path : path_t) : path_t :=
  if filepath_is_readable fopen_rb path then path
  else executable_directory ++ path.

(** [sanitize_dirpath], lines 199-204. *)
Definition sanitize_dirpath
    (stat : stat_call) (executable_directory : path_t)
    (path : path_t) : path_t :=
  if path_is_directory stat path then path
  else executable_directory ++ path.

(** ** [get_executable_directory] *)

Definition slash : ascii := "/"%char.

(** [get_executable_directory], lines 168-176, from line 172 on.
    [filepath] is the C string that the array holds once [readlink] has
    filled it; [readlink] itself writes no terminator, so the string ends at
    the first NUL the array happens to hold.  [strrchr] finds the last '/',
    the character behind it is overwritten with NUL, and the array is
    returned as a string.  [None] is the case of no '/': [slash] is null
    and the store goes through it. *)
Definition get_executable_directory (filepath : string) : option path_t :=
  match rfind filepath slash with
  | None => None
  | Some i => Some (substr0 filepath (i + 1))
  end.

(** ** Further notions *)

(** No character of [s] is a decimal digit. *)
Fixpoint digit_free (s : string) : bool :=
  match s with
  | EmptyString => true
  | String c s' => negb (isdigit (int_of_char c)) && digit_free s'
  end.

(** The strict lexicographic order on sequences of [int] values, a proper
    prefix being less. *)
Fixpoint lex_ltb (u v : list Z) : bool :=
  match u, v with
  | [], [] => false
  | [], _ :: _ => true
  | _ :: _, [] => false
  | x :: u', y :: v' => if x =? y then lex_ltb u' v' else x <? y
  end.

(** ** [std::sort] as GNU libstdc++ implements it *)

(** The introsort of <bits/stl_algo.h> and the heap operations of
    <bits/stl_heap.h> it falls back on, on an array held as a list and
    iterators held as indices.  A move assignment [*p = std::move( *q )] is
    the store of the value read: the slot left behind is always written
    again before it is read.  The loops that the library leaves unguarded
    end by themselves for a strict weak ordering; here they also end at the
    bounds of the array. *)
Module Libstdcxx.
Local Open Scope nat_scope.

Section Sort.
Variable A : Type.
Variable dflt : A.
Variable comp : A -> A -> bool.

(** [*(first + i)] as a value. *)
Definition at_ (v : list A) (i : nat) : A := nth i v dflt.

(** [*(first + i) = x]. *)
Fixpoint put (v : list A) (i : nat) (x : A) : list A :=
  match v, i with
  | [], _ => []
  | _ :: t, O => x :: t
  | y :: t, S j => y :: put t j x
  end.

(** [std::iter_swap(a, b)] *)
Definition iter_swap (v : list A) (a b : nat) : list A :=
  put (put v a (at_ v b)) b (at_ v a).

(** [enum { _S_threshold = 16 };] *)
Definition S_threshold : nat := 16.

(** [std::__lg(n)]: the position of the highest set bit. *)
Definition lg (n : nat) : nat := Nat.log2 n.

(** *** Heap operations *)

(** [std::__push_heap(first, holeIndex, topIndex, value, comp)] *)
Fixpoint push_heap (bound : nat) (v : list A)
    (first holeIndex topIndex : nat) (value : A) : list A :=
  match bound with
  | O => put v (first + holeIndex) value
  | S bound' =>
      let parent := (holeIndex - 1) / 2 in
      if (topIndex <? holeIndex) && comp (at_ v (first + parent)) value then
        push_heap bound' (put v (first + holeIndex) (at_ v (first + parent)))
                  first parent topIndex value
      else put v (first + holeIndex) value
  end.

(** The first loop of [std::__adjust_heap]: the hole sinks to a leaf along
    the larger children. *)
Fixpoint adjust_heap_sink (bound : nat) (v : list A)
    (first holeIndex secondChild len : nat) : list A * nat * nat :=
  match bound with
  | O => (v, holeIndex, secondChild)
  | S bound' =>
      if secondChild <? (len - 1) / 2 then
        let secondChild := 2 * (secondChild + 1) in
        let secondChild :=
          if comp (at_ v (first + secondChild)) (at_ v (first + (secondChild - 1)))
          then secondChild - 1 else secondChild in
        adjust_heap_sink bound'
          (put v (first + holeIndex) (at_ v (first + secondChild)))
          first secondChild secondChild len
      else (v, holeIndex, secondChild)
  end.

(** [std::__adjust_heap(first, holeIndex, len, value, comp)] *)
Definition adjust_heap (v : list A) (first holeIndex len : nat) (value : A) : list A :=
  let topIndex := holeIndex in
  let '(v, holeIndex, secondChild) :=
    adjust_heap_sink len v first holeIndex holeIndex len in
  let '(v, holeIndex) :=
    if Nat.even len && (secondChild =? (len - 2) / 2) then
      let secondChild := 2 * (secondChild + 1) in
      (put v (first + holeIndex) (at_ v (first + (secondChild - 1))),
       secondChild - 1)
    else (v, holeIndex) in
  push_heap (S holeIndex) v first holeIndex topIndex value.

(** The [while (true)] loop of [std::__make_heap], [parent] counting down to
    0. *)
Fixpoint make_heap_loop (parent : nat) (v : list A) (first len : nat) : list A :=
  let v := adjust_heap v first parent len (at_ v (first + parent)) in
  match parent with
  | O => v
  | S parent' => make_heap_loop parent' v first len
  end.

(** [std::__make_heap(first, last, comp)] *)
Definition make_heap (v : list A) (first last : nat) : list A :=
  if last - first <? 2 then v
  else
    let len := last - first in
    make_heap_loop ((len - 2) / 2) v first len.

(** [std::__pop_heap(first, last, result, comp)] *)
Definition pop_heap (v : list A) (first last result : nat) : list A :=
  let value := at_ v result in
  let v := put v result (at_ v first) in
  adjust_heap v first 0 (last - first) value.

(** [std::__sort_heap(first, last, comp)] *)
Fixpoint sort_heap_loop (bound : nat) (v : list A) (first last : nat) : list A :=
  match bound with
  | O => v
  | S bound' =>
      if 1 <? last - first then
        let last := last - 1 in
        sort_heap_loop bound' (pop_heap v first last last) first last
      else v
  end.

Definition sort_heap (v : list A) (first last : nat) : list A :=
  sort_heap_loop (last - first) v first last.

(** [std::__heap_select(first, middle, last, comp)] *)
Fixpoint heap_select_loop (count : nat) (v : list A) (first middle i : nat) : list A :=
  match count with
  | O => v
  | S count' =>
      let v := if comp (at_ v i) (at_ v first) then pop_heap v first middle i
               else v in
      heap_select_loop count' v first middle (S i)
  end.

Definition heap_select (v : list A) (first middle last : nat) : list A :=
  heap_select_loop (last - middle) (make_heap v first middle) first middle middle.

(** [std::__partial_sort(first, middle, last, comp)] *)
Definition partial_sort (v : list A) (first middle last : nat) : list A :=
  sort_heap (heap_select v first middle last) first middle.

(** *** Insertion sort *)

(** The loop of [std::__unguarded_linear_insert(last, comp)], [val] held
    aside. *)
Fixpoint unguarded_linear_insert_loop (v : list A) (val : A) (last : nat) : list A :=
  match last with
  | O => put v O val
  | S next =>
      if comp val (at_ v next) then
        unguarded_linear_insert_loop (put v last (at_ v next)) val next
      else put v last val
  end.

Definition unguarded_linear_insert (v : list A) (last : nat) : list A :=
  unguarded_linear_insert_loop v (at_ v last) last.

(** [std::move_backward(first, first + n, first + n + 1)] *)
Fixpoint move_backward (v : list A) (first n : nat) : list A :=
  match n with
  | O => v
  | S m => move_backward (put v (first + S m) (at_ v (first + m))) first m
  end.

(** The [for] loop of [std::__insertion_sort]. *)
Fixpoint insertion_sort_loop (count : nat) (v : list A) (first i : nat) : list A :=
  match count with
  | O => v
  | S count' =>
      let v :=
        if comp (at_ v i) (at_ v first) then
          let val := at_ v i in
          put (move_backward v first (i - first)) first val
        else unguarded_linear_insert v i in
      insertion_sort_loop count' v first (S i)
  end.

(** [std::__insertion_sort(first, last, comp)] *)
Definition insertion_sort (v : list A) (first last : nat) : list A :=
  if first =? last then v
  else insertion_sort_loop (last - (first + 1)) v first (first + 1).

(** [std::__unguarded_insertion_sort(first, last, comp)] *)
Fixpoint unguarded_insertion_sort_loop (count : nat) (v : list A) (i : nat) : list A :=
  match count with
  | O => v
  | S count' => unguarded_insertion_sort_loop count' (unguarded_linear_insert v i) (S i)
  end.

Definition unguarded_insertion_sort (v : list A) (first last : nat) : list A :=
  unguarded_insertion_sort_loop (last - first) v first.

(** [std::__final_insertion_sort(first, last, comp)] *)
Definition final_insertion_sort (v : list A) (first last : nat) : list A :=
  if S_threshold <? last - first then
    let v := insertion_sort v first (first + S_threshold) in
    unguarded_insertion_sort v (first + S_threshold) last
  else insertion_sort v first last.

(** *** Partition *)

(** [std::__move_median_to_first(result, a, b, c, comp)] *)
Definition move_median_to_first (v : list A) (result a b c : nat) : list A :=
  if comp (at_ v a) (at_ v b) then
    if comp (at_ v b) (at_ v c) then iter_swap v result b
    else if comp (at_ v a) (at_ v c) then iter_swap v result c
    else iter_swap v result a
  else if comp (at_ v a) (at_ v c) then iter_swap v result a
  else if comp (at_ v b) (at_ v c) then iter_swap v result c
  else iter_swap v result b.

(** [while (comp(first, pivot)) ++first;] *)
Fixpoint scan_up (bound : nat) (v : list A) (pivot first : nat) : nat :=
  match bound with
  | O => first
  | S bound' =>
      if comp (at_ v first) (at_ v pivot) then scan_up bound' v pivot (S first)
      else first
  end.

(** [while (comp(pivot, last)) --last;] *)
Fixpoint scan_down (v : list A) (pivot last : nat) : nat :=
  match last with
  | O => O
  | S last' =>
      if comp (at_ v pivot) (at_ v last) then scan_down v pivot last'
      else last
  end.

(** [std::__unguarded_partition(first, last, pivot, comp)]: the array and
    the returned iterator. *)
Fixpoint unguarded_partition (bound : nat) (v : list A)
    (first last pivot : nat) : list A * nat :=
  match bound with
  | O => (v, first)
  | S bound' =>
      let first := scan_up (List.length v) v pivot first in
      let last := last - 1 in
      let last := scan_down v pivot last in
      if negb (first <? last) then (v, first)
      else unguarded_partition bound' (iter_swap v first last) (S first) last pivot
  end.

(** [std::__unguarded_partition_pivot(first, last, comp)] *)
Definition unguarded_partition_pivot (v : list A) (first last : nat) : list A * nat :=
  let mid := first + (last - first) / 2 in
  let v := move_median_to_first v first (first + 1) mid (last - 1) in
  unguarded_partition (List.length v) v (first + 1) last first.

(** *** Introsort *)

(** [std::__introsort_loop(first, last, depth_limit, comp)]: one turn of the
    [while] loop, the recursive call on the upper part, and the next turn on
    the lower part with the decremented limit. *)
Fixpoint introsort_loop (depth_limit : nat) (v : list A) (first last : nat) : list A :=
  if S_threshold <? last - first then
    match depth_limit with
    | O => partial_sort v first last last
    | S depth_limit' =>
        let '(v, cut) := unguarded_partition_pivot v first last in
        let v := introsort_loop depth_limit' v cut last in
        introsort_loop depth_limit' v first cut
    end
  else v.

(** [std::__sort(first, last, comp)], which
    [std::sort(v.begin(), v.end(), comp)] calls. *)
Definition sort (v : list A) : list A :=
  let first := O in
  let last := List.length v in
  if first =? last then v
  else
    let v := introsort_loop (lg (last - first) * 2) v first last in
    final_insertion_sort v first last.

End Sort.
End Libstdcxx.

(** [std::sort(v.begin(), v.end(), comp)] on a [std::vector<path_t>]. *)
Definition libstdcxx_sort (comp : path_t -> path_t -> bool) (v : list path_t) : list path_t :=
  Libstdcxx.sort path_t EmptyString comp v.

(** Twenty names that differ in the zeros before the number only: each
    reads as the number 1 followed by ".png". *)
Definition tied_names : list path_t :=
  [ "1.png"; "01.png"; "001.png"; "0001.png"; "00001.png";
    "000001.png"; "0000001.png"; "00000001.png"; "000000001.png";
    "0000000001.png"; "00000000001.png"; "000000000001.png";
    "0000000000001.png"; "00000000000001.png"; "000000000000001.png";
    "0000000000000001.png"; "00000000000000001.png";
    "000000000000000001.png"; "0000000000000000001.png";
    "00000000000000000001.png" ].

(** * Properties *)

(** ** Characters *)

Lemma int_of_char_inj (c d : ascii) : int_of_char c = int_of_char d -> c = d.
Proof.
  unfold int_of_char. intros H.
  assert (Hc : (N_of_ascii c < 256)%N) by apply N_ascii_bounded.
  assert (Hd : (N_of_ascii d < 256)%N) by apply N_ascii_bounded.
  rewrite <- (ascii_N_embedding c), <- (ascii_N_embedding d).
  f_equal.
  destruct (Z.ltb_spec (Z.of_N (N_of_ascii c)) 128),
           (Z.ltb_spec (Z.of_N (N_of_ascii d)) 128); lia.
Qed.

Lemma isdigit_iff (c : Z) : isdigit c = true <-> 48 <= c <= 57.
Proof. unfold isdigit. rewrite andb_true_iff, !Z.leb_le. tauto. Qed.

Lemma isdigit_toupper (c : Z) : isdigit (toupper c) = isdigit c.
Proof.
  unfold toupper, isdigit.
  destruct (Z.leb_spec 97 c), (Z.leb_spec c 122),
           (Z.leb_spec (-128) c), (Z.ltb_spec c (-1)); cbn [andb];
    repeat match goal with
           | |- context [Z.leb ?x ?y] => destruct (Z.leb_spec x y)
           end; cbn [andb]; try reflexivity; lia.
Qed.

Lemma toupper_digit (c : Z) : isdigit c = true -> toupper c = c.
Proof.
  rewrite isdigit_iff. unfold toupper. intros H.
  destruct (Z.leb_spec 97 c), (Z.leb_spec c 122),
           (Z.leb_spec (-128) c), (Z.ltb_spec c (-1)); cbn [andb];
    try reflexivity; lia.
Qed.

Lemma toupper_newline (c : Z) : toupper c = 10 <-> c = 10.
Proof.
  unfold toupper.
  destruct (Z.leb_spec 97 c), (Z.leb_spec c 122),
           (Z.leb_spec (-128) c), (Z.ltb_spec c (-1)); cbn [andb]; lia.
Qed.

(** ** Strings *)

Lemma empty_true (s : string) : empty s = true <-> s = EmptyString.
Proof. destruct s; simpl; split; congruence. Qed.

Lemma substr_length (s : string) (pos : nat) :
  String.length (substr s pos) = (String.length s - pos)%nat.
Proof.
  revert s; induction pos as [|p IH]; intros [|c s]; simpl; auto with arith.
Qed.

Lemma substr_0 (s : string) : substr s 0 = s.
Proof. now destruct s. Qed.

Lemma substr_tail (c : ascii) (s : string) : substr (String c s) 1 = s.
Proof. apply substr_0. Qed.

(** The one [substr(1)] of the comparator and the [substr(dot + 1)] of
    [get_file_extension] start inside the string, so neither throws. *)
Lemma substr_calls_in_range :
  (forall a, empty a = false -> (1 <= String.length a)%nat) /\
  (forall path d, rfind path dot = Some d -> (d + 1 <= String.length path)%nat).
Proof.
  split.
  - intros [|c s]; simpl; [discriminate | lia].
  - induction path as [|c s IH]; simpl; intros d H; [discriminate|].
    destruct (rfind s dot) as [i|] eqn:E.
    + injection H as <-. specialize (IH i eq_refl). lia.
    + destruct (Ascii.eqb c dot); [injection H as <-; lia | discriminate].
Qed.

(** ** The stream operations on a digit-leading string *)

Lemma scan_digits_eq (s : string) (count : nat) (acc : Z) :
  scan_digits s count acc =
  ((count + List.length (leading_digits s))%nat,
   fold_left (fun acc d => 10 * acc + d) (leading_digits s) acc,
   after_digit_run s).
Proof.
  revert count acc; induction s as [|c s IH]; intros count acc; simpl.
  - now rewrite Nat.add_0_r.
  - destruct (isdigit (int_of_char c)); simpl.
    + rewrite IH. now rewrite Nat.add_succ_r.
    + now rewrite Nat.add_0_r.
Qed.

Lemma after_digit_run_length (s : string) :
  (String.length (after_digit_run s) <= String.length s)%nat.
Proof.
  induction s as [|c s IH]; simpl; [lia|].
  destruct (isdigit (int_of_char c)); simpl; lia.
Qed.

Lemma after_digit_run_shorter (s : string) :
  digit_leading s = true ->
  (String.length (after_digit_run s) < String.length s)%nat.
Proof.
  destruct s as [|c s]; simpl; [discriminate|].
  unfold digit_leading; simpl. intros ->.
  pose proof (after_digit_run_length s). lia.
Qed.

Lemma leading_digits_nonempty (s : string) :
  digit_leading s = true -> exists d ds, leading_digits s = d :: ds.
Proof.
  destruct s as [|c s]; simpl; [discriminate|].
  unfold digit_leading; simpl. intros ->. eauto.
Qed.

Lemma line_of_length (s : string) :
  (String.length (line_of s) <= String.length s)%nat.
Proof.
  unfold line_of. induction s as [|c s IH]; simpl; [lia|].
  destruct (Ascii.eqb c newline); simpl; [lia|].
  destruct (read_line s) as [[line rest] nl]; simpl in *. lia.
Qed.

Lemma line_of_no_newline (s : string) :
  occurs newline s = false -> line_of s = s.
Proof.
  unfold line_of. induction s as [|c s IH]; simpl; [reflexivity|].
  destruct (Ascii.eqb c newline); simpl; [discriminate|].
  intros H. specialize (IH H).
  destruct (read_line s) as [[line rest] nl]; simpl in *. now subst.
Qed.

Lemma extract_getline (s : string) :
  digit_leading s = true ->
  let '(iss, i) := extract_int (iss_open s) in
  i = Z.min (digit_run_value s) INT_MAX /\
  snd (getline iss EmptyString) = rest_after_number s.
Proof.
  intros Hd.
  unfold extract_int, iss_open, rest_after_number; simpl unread.
  rewrite scan_digits_eq.
  destruct (leading_digits_nonempty s Hd) as [d [ds E]].
  fold (decimal_value (leading_digits s)). fold (digit_run_value s).
  rewrite E; simpl List.length; simpl Nat.add.
  destruct (Z.leb_spec (digit_run_value s) INT_MAX) as [Hle|Hgt].
  - split; [lia|].
    unfold getline, good; simpl.
    destruct (after_digit_run s) as [|c r] eqn:Er; simpl; [reflexivity|].
    unfold line_of; simpl.
    destruct (Ascii.eqb c newline); simpl; [reflexivity|].
    now destruct (read_line r) as [[line rest] nl].
  - split; [lia|].
    unfold getline, good; simpl. now rewrite andb_false_r.
Qed.

Lemma rest_after_number_shorter (s : string) :
  digit_leading s = true ->
  (String.length (rest_after_number s) < String.length s)%nat.
Proof.
  intros Hd. unfold rest_after_number.
  pose proof (after_digit_run_shorter s Hd).
  pose proof (line_of_length (after_digit_run s)).
  destruct (digit_run_value s <=? INT_MAX); simpl; lia.
Qed.

Lemma next_token_digit (s : string) :
  digit_leading s = true ->
  next_token s = (Num (Z.min (digit_run_value s) INT_MAX), rest_after_number s).
Proof.
  intros Hd. pose proof (extract_getline s Hd) as H.
  unfold next_token.
  assert (Hf : isdigit (int_of_char (front s)) = true).
  { unfold digit_leading in Hd. now apply andb_true_iff in Hd. }
  rewrite Hf.
  destruct (extract_int (iss_open s)) as [iss i].
  destruct H as [-> H].
  destruct (getline iss EmptyString) as [iss' snew]; simpl in H. now subst.
Qed.

Lemma next_token_char (s : string) :
  isdigit (int_of_char (front s)) = false ->
  next_token s = (Chr (toupper (int_of_char (front s))), substr s 1).
Proof. intros H. unfold next_token. now rewrite H. Qed.

Lemma next_token_shorter (s : string) :
  empty s = false ->
  (String.length (snd (next_token s)) < String.length s)%nat.
Proof.
  intros He.
  destruct (isdigit (int_of_char (front s))) eqn:E.
  - assert (Hd : digit_leading s = true)
      by (unfold digit_leading; now rewrite He, E).
    rewrite (next_token_digit s Hd); simpl.
    now apply rest_after_number_shorter.
  - rewrite (next_token_char s E); simpl.
    rewrite substr_length. destruct s; simpl in *; [discriminate | lia].
Qed.

(** ** One activation, in terms of tokens *)

Lemma token_lt_irrefl (t : token) : token_lt t t = false.
Proof. destruct t; simpl; apply Z.ltb_irrefl. Qed.

Lemma token_lt_asym (t u : token) : token_lt t u = true -> token_lt u t = false.
Proof.
  destruct t, u; simpl; try congruence;
    rewrite Z.ltb_lt, Z.ltb_ge; lia.
Qed.

Lemma token_lt_trans (t u v : token) :
  token_lt t u = true -> token_lt u v = true -> token_lt t v = true.
Proof.
  destruct t, u, v; simpl; try congruence; rewrite !Z.ltb_lt; lia.
Qed.

Lemma token_lt_total (t u : token) :
  token_lt t u = false -> token_lt u t = false -> t = u.
Proof.
  destruct t, u; simpl; try congruence;
    rewrite !Z.ltb_ge; intros; f_equal; lia.
Qed.

(** With both operands non-empty, an activation compares the two front
    tokens and goes on behind them when they are equal. *)
Lemma body_tokens (a b : path_t) :
  empty a = false -> empty b = false ->
  compare_path_natural_body a b =
  let '(ta, a') := next_token a in
  let '(tb, b') := next_token b in
  if token_lt ta tb then Return true
  else if token_lt tb ta then Return false
  else Recurse a' b'.
Proof.
  intros Ha Hb. unfold compare_path_natural_body. rewrite Ha, Hb; simpl orb; cbv iota.
  cbv zeta.
  destruct (isdigit (int_of_char (front a))) eqn:Da,
           (isdigit (int_of_char (front b))) eqn:Db; simpl andb; cbv iota.
  - assert (Hda : digit_leading a = true)
      by (unfold digit_leading; now rewrite Ha, Da).
    assert (Hdb : digit_leading b = true)
      by (unfold digit_leading; now rewrite Hb, Db).
    rewrite (next_token_digit a Hda), (next_token_digit b Hdb).
    pose proof (extract_getline a Hda) as Ea.
    pose proof (extract_getline b Hdb) as Eb.
    destruct (extract_int (iss_open a)) as [issa ia].
    destruct (extract_int (iss_open b)) as [issb ib].
    destruct Ea as [-> Ea], Eb as [-> Eb].
    destruct (getline issa EmptyString) as [issa' anew].
    destruct (getline issb EmptyString) as [issb' bnew].
    simpl in Ea, Eb. subst anew bnew. simpl token_lt.
    set (ia := Z.min (digit_run_value a) INT_MAX).
    set (ib := Z.min (digit_run_value b) INT_MAX).
    destruct (Z.eqb_spec ia ib) as [E|N]; simpl negb; cbv iota.
    + rewrite E, Z.ltb_irrefl. reflexivity.
    + destruct (Z.ltb_spec ia ib); [reflexivity|].
      destruct (Z.ltb_spec ib ia); [reflexivity | lia].
  - assert (Hda : digit_leading a = true)
      by (unfold digit_leading; now rewrite Ha, Da).
    rewrite (next_token_digit a Hda), (next_token_char b Db). reflexivity.
  - assert (Hdb : digit_leading b = true)
      by (unfold digit_leading; now rewrite Hb, Db).
    rewrite (next_token_char a Da), (next_token_digit b Hdb). reflexivity.
  - rewrite (next_token_char a Da), (next_token_char b Db). simpl token_lt.
    set (ua := toupper (int_of_char (front a))).
    set (ub := toupper (int_of_char (front b))).
    destruct (Z.eqb_spec ua ub) as [E|N].
    + rewrite E, Z.ltb_irrefl. reflexivity.
    + destruct (Z.ltb_spec ua ub); [reflexivity|].
      destruct (Z.ltb_spec ub ua); [reflexivity | lia].
Qed.

Lemma body_empty (a b : path_t) :
  empty a || empty b = true ->
  compare_path_natural_body a b = Return (empty a && negb (empty b)).
Proof. intros H. unfold compare_path_natural_body. now rewrite H. Qed.

(** Each tail call is on two strictly shorter strings. *)
Lemma body_recurse_shorter (a b a' b' : path_t) :
  compare_path_natural_body a b = Recurse a' b' ->
  (String.length a' < String.length a)%nat /\
  (String.length b' < String.length b)%nat.
Proof.
  destruct (empty a) eqn:Ha; [rewrite body_empty by now rewrite Ha|];
    [discriminate|].
  destruct (empty b) eqn:Hb;
    [rewrite body_empty by (rewrite Hb; apply orb_true_r)|]; [discriminate|].
  rewrite (body_tokens a b Ha Hb).
  pose proof (next_token_shorter a Ha) as La.
  pose proof (next_token_shorter b Hb) as Lb.
  destruct (next_token a) as [ta a1], (next_token b) as [tb b1].
  destruct (token_lt ta tb); [discriminate|].
  destruct (token_lt tb ta); [discriminate|].
  intros H; injection H as <- <-. now split.
Qed.

(** ** Enough activations *)

Lemma within_returns (n : nat) :
  forall a b,
    (Nat.min (String.length a) (String.length b) < n)%nat ->
    exists r, compare_path_natural_within n a b = Some r.
Proof.
  induction n as [|n IH]; intros a b Hn; [lia|].
  simpl. destruct (compare_path_natural_body a b) as [r|a' b'] eqn:E.
  - now exists r.
  - apply body_recurse_shorter in E. apply IH. lia.
Qed.

Lemma within_more (n m : nat) :
  forall a b r,
    compare_path_natural_within n a b = Some r -> (n <= m)%nat ->
    compare_path_natural_within m a b = Some r.
Proof.
  revert m; induction n as [|n IH]; intros m a b r H Hm; [discriminate|].
  destruct m as [|m]; [lia|]. simpl in *.
  destruct (compare_path_natural_body a b) as [r'|a' b']; [assumption|].
  apply (IH m); [assumption | lia].
Qed.

Lemma within_compare (n : nat) (a b : path_t) :
  (Nat.min (String.length a) (String.length b) < n)%nat ->
  compare_path_natural_within n a b = Some (compare_path_natural a b).
Proof.
  intros Hn. unfold compare_path_natural.
  destruct (within_returns (S (String.length a)) a b) as [r Hr]; [lia|].
  rewrite Hr.
  destruct (within_returns n a b Hn) as [r' Hr'].
  rewrite Hr'. f_equal.
  destruct (Nat.le_ge_cases n (S (String.length a))) as [L|L].
  - rewrite (within_more _ _ _ _ _ Hr' L) in Hr. congruence.
  - rewrite (within_more _ _ _ _ _ Hr L) in Hr'. congruence.
Qed.

(** The defining equation of [compare_path_natural]: the source text with
    the recursive calls in place. *)
Lemma compare_path_natural_unfold (a b : path_t) :
  compare_path_natural a b =
  match compare_path_natural_body a b with
  | Return r => r
  | Recurse a' b' => compare_path_natural a' b'
  end.
Proof.
  pose proof (within_compare (S (String.length a)) a b) as H.
  simpl in H.
  destruct (compare_path_natural_body a b) as [r|a' b'] eqn:E.
  - assert (Some r = Some (compare_path_natural a b)) by (apply H; lia).
    congruence.
  - apply body_recurse_shorter in E.
    rewrite (within_compare (String.length a) a' b') in H by lia.
    assert (Some (compare_path_natural a' b') = Some (compare_path_natural a b))
      by (apply H; lia).
    congruence.
Qed.

(** ** The comparator is the lexicographic order of the keys *)

Lemma keys_within_enough (n : nat) :
  forall m s,
    (String.length s <= n)%nat -> (String.length s <= m)%nat ->
    keys_within n s = keys_within m s.
Proof.
  induction n as [|n IH]; intros m s Hn Hm.
  - destruct s; [|simpl in Hn; lia]. now destruct m.
  - destruct m as [|m].
    + destruct s; [reflexivity | simpl in Hm; lia].
    + simpl. destruct (empty s) eqn:He; [reflexivity|].
      pose proof (next_token_shorter s He) as L.
      destruct (next_token s) as [t s']; simpl in L.
      f_equal. apply IH; lia.
Qed.

Lemma keys_unfold (s : string) :
  keys s =
  if empty s then []
  else let '(t, s') := next_token s in t :: keys s'.
Proof.
  unfold keys. destruct s as [|c s]; [reflexivity|].
  cbn [String.length keys_within empty].
  pose proof (next_token_shorter (String c s) eq_refl) as L.
  destruct (next_token (String c s)) as [t s']; simpl in L.
  f_equal. apply keys_within_enough; lia.
Qed.

Lemma keys_empty : keys EmptyString = [].
Proof. reflexivity. Qed.

Lemma keys_nonempty (s : string) : empty s = false -> keys s <> [].
Proof.
  intros He. rewrite keys_unfold, He.
  destruct (next_token s); discriminate.
Qed.

Lemma compare_keys (a b : path_t) :
  compare_path_natural a b = keys_lt (keys a) (keys b).
Proof.
  remember (String.length a) as n eqn:Hn.
  revert a b Hn.
  induction n as [n IH] using lt_wf_ind; intros a b Hn.
  rewrite compare_path_natural_unfold.
  destruct (empty a) eqn:Ha.
  { rewrite body_empty by now rewrite Ha.
    apply empty_true in Ha; subst a. rewrite keys_empty.
    destruct (empty b) eqn:Hb.
    - apply empty_true in Hb; subst b. reflexivity.
    - pose proof (keys_nonempty b Hb). simpl.
      destruct (keys b); [congruence | reflexivity]. }
  destruct (empty b) eqn:Hb.
  { rewrite body_empty by (rewrite Hb; apply orb_true_r).
    apply empty_true in Hb; subst b. rewrite keys_empty.
    pose proof (keys_nonempty a Ha). rewrite Ha. simpl.
    destruct (keys a); [congruence | reflexivity]. }
  rewrite (body_tokens a b Ha Hb).
  rewrite (keys_unfold a), (keys_unfold b), Ha, Hb.
  pose proof (next_token_shorter a Ha) as La.
  destruct (next_token a) as [ta a'], (next_token b) as [tb b'].
  simpl in La. simpl keys_lt.
  destruct (token_lt ta tb); [reflexivity|].
  destruct (token_lt tb ta); [reflexivity|].
  apply (IH (String.length a')); [lia | reflexivity].
Qed.

Lemma keys_lt_irrefl (k : list token) : keys_lt k k = false.
Proof.
  induction k as [|t k IH]; simpl; [reflexivity|].
  now rewrite token_lt_irrefl.
Qed.

Lemma keys_lt_asym (k : list token) :
  forall l, keys_lt k l = true -> keys_lt l k = false.
Proof.
  induction k as [|t k IH]; intros [|u l]; simpl; try congruence.
  destruct (token_lt t u) eqn:E1.
  - now rewrite (token_lt_asym _ _ E1).
  - destruct (token_lt u t) eqn:E2; [congruence | apply IH].
Qed.

Lemma keys_lt_trans (k : list token) :
  forall l m, keys_lt k l = true -> keys_lt l m = true -> keys_lt k m = true.
Proof.
  induction k as [|t k IH]; intros [|u l] [|v m]; simpl; try congruence.
  destruct (token_lt t u) eqn:Etu.
  - intros _. destruct (token_lt u v) eqn:Euv.
    + now rewrite (token_lt_trans _ _ _ Etu Euv).
    + destruct (token_lt v u) eqn:Evu; [congruence|].
      rewrite (token_lt_total _ _ Euv Evu) in Etu. now rewrite Etu.
  - destruct (token_lt u t) eqn:Eut; [congruence|].
    rewrite (token_lt_total _ _ Etu Eut).
    destruct (token_lt u v); [reflexivity|].
    destruct (token_lt v u); [congruence | apply IH].
Qed.

Lemma keys_lt_total (k : list token) :
  forall l, keys_lt k l = false -> keys_lt l k = false -> k = l.
Proof.
  induction k as [|t k IH]; intros [|u l]; simpl; try congruence.
  destruct (token_lt t u) eqn:Etu; [congruence|].
  destruct (token_lt u t) eqn:Eut; [congruence|].
  rewrite (token_lt_total _ _ Etu Eut).
  intros H1 H2. f_equal. now apply IH.
Qed.

(** Two paths are equivalent exactly when their keys coincide. *)
Lemma equivalent_keys (a b : path_t) : equivalent a b <-> keys a = keys b.
Proof.
  unfold equivalent. rewrite !compare_keys. split.
  - intros [H1 H2]. now apply keys_lt_total.
  - intros ->. split; apply keys_lt_irrefl.
Qed.

Lemma compare_path_natural_swo : strict_weak_order compare_path_natural.
Proof.
  split.
  - intros a. rewrite compare_keys. apply keys_lt_irrefl.
  - intros a b. rewrite !compare_keys. apply keys_lt_asym.
  - intros a b c. rewrite !compare_keys. apply keys_lt_trans.
  - intros a b c H1 H2 H3 H4. apply equivalent_keys.
    transitivity (keys b); apply equivalent_keys; split; assumption.
Qed.

(** ** Case permutations have the same key *)

Lemma newline_char (c : ascii) : Ascii.eqb c newline = (int_of_char c =? 10).
Proof.
  destruct (Ascii.eqb_spec c newline) as [->|N]; [reflexivity|].
  symmetry. apply Z.eqb_neq. intros H. apply N.
  apply int_of_char_inj. exact H.
Qed.

Lemma upper_image_leading_digits (a : string) :
  forall b, upper_image a = upper_image b -> leading_digits a = leading_digits b.
Proof.
  induction a as [|c a IH]; intros [|d b]; simpl; try congruence.
  intros H; injection H as Hc Ht.
  assert (Hd : isdigit (int_of_char c) = isdigit (int_of_char d))
    by (rewrite <- (isdigit_toupper (int_of_char c)), Hc; apply isdigit_toupper).
  destruct (isdigit (int_of_char c)) eqn:E; symmetry in Hd; rewrite Hd;
    [|reflexivity].
  rewrite (toupper_digit _ E), (toupper_digit _ Hd) in Hc.
  rewrite Hc. f_equal. now apply IH.
Qed.

Lemma upper_image_after_digit_run (a : string) :
  forall b, upper_image a = upper_image b ->
            upper_image (after_digit_run a) = upper_image (after_digit_run b).
Proof.
  induction a as [|c a IH]; intros [|d b]; simpl; try congruence.
  intros H; injection H as Hc Ht.
  assert (Hd : isdigit (int_of_char c) = isdigit (int_of_char d))
    by (rewrite <- (isdigit_toupper (int_of_char c)), Hc; apply isdigit_toupper).
  rewrite <- Hd. destruct (isdigit (int_of_char c)); [now apply IH|].
  simpl. now rewrite Hc, Ht.
Qed.

Lemma upper_image_line_of (a : string) :
  forall b, upper_image a = upper_image b ->
            upper_image (line_of a) = upper_image (line_of b).
Proof.
  unfold line_of.
  induction a as [|c a IH]; intros [|d b]; simpl; try congruence.
  intros H; injection H as Hc Ht.
  rewrite !newline_char.
  assert (Hn : (int_of_char c =? 10) = (int_of_char d =? 10)).
  { destruct (Z.eqb_spec (int_of_char c) 10) as [E|E],
             (Z.eqb_spec (int_of_char d) 10) as [F|F]; try reflexivity; exfalso.
    - apply F, toupper_newline. rewrite <- Hc. now apply toupper_newline.
    - apply E, toupper_newline. rewrite Hc. now apply toupper_newline. }
  rewrite <- Hn. destruct (int_of_char c =? 10); [reflexivity|].
  specialize (IH b Ht).
  destruct (read_line a) as [[la ra] na], (read_line b) as [[lb rb] nb].
  simpl in *. now rewrite Hc, IH.
Qed.

Lemma upper_image_rest_after_number (a b : string) :
  upper_image a = upper_image b ->
  upper_image (rest_after_number a) = upper_image (rest_after_number b).
Proof.
  intros H. unfold rest_after_number, digit_run_value.
  rewrite (upper_image_leading_digits a b H).
  destruct (decimal_value (leading_digits b) <=? INT_MAX); [|reflexivity].
  now apply upper_image_line_of, upper_image_after_digit_run.
Qed.

Lemma upper_image_keys (a b : string) :
  upper_image a = upper_image b -> keys a = keys b.
Proof.
  remember (String.length a) as n eqn:Hn.
  revert a b Hn.
  induction n as [n IH] using lt_wf_ind; intros a b Hn H.
  rewrite (keys_unfold a), (keys_unfold b).
  destruct a as [|c a], b as [|d b]; simpl in H; try congruence.
  assert (H' : upper_image (String c a) = upper_image (String d b)) by exact H.
  cbn [empty].
  pose proof (next_token_shorter (String c a) eq_refl) as La.
  assert (Hc : toupper (int_of_char c) = toupper (int_of_char d)) by congruence.
  assert (Hd : isdigit (int_of_char c) = isdigit (int_of_char d))
    by (rewrite <- (isdigit_toupper (int_of_char c)), Hc; apply isdigit_toupper).
  destruct (isdigit (int_of_char c)) eqn:E.
  - assert (Da : digit_leading (String c a) = true)
      by (unfold digit_leading; simpl; exact E).
    assert (Db : digit_leading (String d b) = true)
      by (unfold digit_leading; simpl; congruence).
    rewrite (next_token_digit _ Da) in *. rewrite (next_token_digit _ Db).
    simpl in La. unfold digit_run_value.
    rewrite (upper_image_leading_digits _ _ H'). f_equal.
    apply (IH (String.length (rest_after_number (String c a))));
      [subst n; simpl; lia | reflexivity |].
    now apply upper_image_rest_after_number.
  - rewrite (next_token_char (String c a)) by exact E.
    rewrite (next_token_char (String d b)) by (simpl; congruence).
    rewrite !substr_tail. cbn [front]. rewrite Hc. f_equal.
    apply (IH (String.length a)); [subst n; simpl; lia | reflexivity |].
    congruence.
Qed.

(** ** The rules of the comparator *)

(** C7 -- the empty-string rule: the empty string is less than every
    non-empty string, it is not less than itself, and no string is less than
    the empty string. *)
Theorem empty_string_rule :
  (forall b, b <> EmptyString -> compare_path_natural EmptyString b = true) /\
  compare_path_natural EmptyString EmptyString = false /\
  (forall a, compare_path_natural a EmptyString = false).
Proof.
  split; [|split].
  - intros [|c b] H; [congruence | reflexivity].
  - reflexivity.
  - intros a. rewrite compare_path_natural_unfold, body_empty.
    + simpl. apply andb_false_r.
    + apply orb_true_r.
Qed.

Lemma empty_string_rule_witness : compare_path_natural "" "a" = true.
Proof. apply (proj1 empty_string_rule). discriminate. Defined.

(** The non-digit branch, lines 45-50, on operands given by their first
    character and what follows it. *)
Lemma compare_cons_non_digit (c d : ascii) (a b : string) :
  isdigit (int_of_char c) = false -> isdigit (int_of_char d) = false ->
  compare_path_natural (String c a) (String d b) =
  if toupper (int_of_char c) =? toupper (int_of_char d)
  then compare_path_natural a b
  else toupper (int_of_char c) <? toupper (int_of_char d).
Proof.
  intros Dc Dd.
  rewrite compare_path_natural_unfold. unfold compare_path_natural_body.
  cbn [empty orb front]. cbv zeta. rewrite Dc, Dd. cbn [andb negb].
  rewrite !substr_tail.
  destruct (toupper (int_of_char c) =? toupper (int_of_char d)); reflexivity.
Qed.

(** C6 -- both leading characters non-digits: equal upper-cased leading
    characters send the comparison on to both strings without their first
    character, unequal ones decide it by their upper-cased values; "ABC" and
    "abc" are neither less nor greater than each other, and so are any two
    strings that are case permutations of each other. *)
Theorem non_digit_rule :
  (forall (c d : ascii) (a b : string),
      isdigit (int_of_char c) = false ->
      isdigit (int_of_char d) = false ->
      compare_path_natural (String c a) (String d b) =
      if toupper (int_of_char c) =? toupper (int_of_char d)
      then compare_path_natural a b
      else toupper (int_of_char c) <? toupper (int_of_char d)) /\
  compare_path_natural "ABC" "abc" = false /\
  compare_path_natural "abc" "ABC" = false /\
  (forall a b,
      case_permutation a b ->
      compare_path_natural a b = false /\ compare_path_natural b a = false).
Proof.
  split; [|split; [|split]].
  - apply compare_cons_non_digit.
  - reflexivity.
  - reflexivity.
  - intros a b H. apply equivalent_keys. now apply upper_image_keys.
Qed.

Lemma non_digit_rule_witness :
  compare_path_natural "abc" "ABD" = compare_path_natural "bc" "BD" /\
  compare_path_natural "abc" "xyz" = true /\
  (compare_path_natural "Frame.PNG" "fRAME.png" = false /\
   compare_path_natural "fRAME.png" "Frame.PNG" = false).
Proof.
  split; [|split].
  - apply (proj1 non_digit_rule "a"%char "A"%char "bc" "BD"); reflexivity.
  - apply (proj1 non_digit_rule "a"%char "x"%char "bc" "yz"); reflexivity.
  - apply (proj2 (proj2 (proj2 non_digit_rule))). reflexivity.
Defined.

Lemma compare_digit_leading (a b : path_t) :
  digit_leading a = true -> digit_leading b = true ->
  compare_path_natural a b =
  let ia := Z.min (digit_run_value a) INT_MAX in
  let ib := Z.min (digit_run_value b) INT_MAX in
  if ia =? ib
  then compare_path_natural (rest_after_number a) (rest_after_number b)
  else ia <? ib.
Proof.
  intros Da Db.
  assert (Ha : empty a = false)
    by (unfold digit_leading in Da; destruct (empty a); [discriminate | reflexivity]).
  assert (Hb : empty b = false)
    by (unfold digit_leading in Db; destruct (empty b); [discriminate | reflexivity]).
  rewrite compare_path_natural_unfold, (body_tokens a b Ha Hb).
  rewrite (next_token_digit a Da), (next_token_digit b Db).
  cbv zeta. simpl token_lt.
  set (ia := Z.min (digit_run_value a) INT_MAX).
  set (ib := Z.min (digit_run_value b) INT_MAX).
  destruct (Z.eqb_spec ia ib) as [E|N].
  - rewrite E, Z.ltb_irrefl. reflexivity.
  - destruct (Z.ltb_spec ia ib); [reflexivity|].
    destruct (Z.ltb_spec ib ia); [reflexivity | lia].
Qed.

(** C2, as the code has it -- both leading characters digits, both leading
    digit runs denoting values that fit an [int] (at most [INT_MAX]):
    different values decide the comparison by their order; equal values send
    it on to the remainders after the runs, provided no newline follows in
    them.  "img007.png" and "img7.png" are neither less nor greater than
    each other. *)
Theorem digit_rule_in_range :
  (forall a b,
      digit_leading a = true -> digit_leading b = true ->
      digit_run_value a <= INT_MAX -> digit_run_value b <= INT_MAX ->
      (digit_run_value a <> digit_run_value b ->
       compare_path_natural a b = (digit_run_value a <? digit_run_value b)) /\
      (digit_run_value a = digit_run_value b ->
       occurs newline (after_digit_run a) = false ->
       occurs newline (after_digit_run b) = false ->
       compare_path_natural a b =
       compare_path_natural (after_digit_run a) (after_digit_run b))) /\
  compare_path_natural "img007.png" "img7.png" = false /\
  compare_path_natural "img7.png" "img007.png" = false.
Proof.
  split; [|split; reflexivity].
  intros a b Da Db Ra Rb.
  rewrite (compare_digit_leading a b Da Db). cbv zeta.
  rewrite !Z.min_l by assumption.
  split.
  - intros N. apply Z.eqb_neq in N. now rewrite N.
  - intros E Na Nb. rewrite E, Z.eqb_refl.
    unfold rest_after_number.
    apply Z.leb_le in Ra, Rb. rewrite Ra, Rb.
    now rewrite !line_of_no_newline.
Qed.

Lemma digit_rule_in_range_witness :
  compare_path_natural "12.png" "9.png" = false /\
  compare_path_natural "007b.png" "7a.png" = compare_path_natural "b.png" "a.png".
Proof.
  pose proof (proj1 digit_rule_in_range) as H.
  assert (R12 : digit_run_value "12.png" <= INT_MAX) by (vm_compute; discriminate).
  assert (R9 : digit_run_value "9.png" <= INT_MAX) by (vm_compute; discriminate).
  assert (R007 : digit_run_value "007b.png" <= INT_MAX) by (vm_compute; discriminate).
  assert (R7 : digit_run_value "7a.png" <= INT_MAX) by (vm_compute; discriminate).
  split.
  - apply (proj1 (H "12.png" "9.png" eq_refl eq_refl R12 R9)).
    vm_compute; discriminate.
  - apply (proj2 (H "007b.png" "7a.png" eq_refl eq_refl R007 R7)); reflexivity.
Defined.

(** C2 as written fails once a digit run leaves the range of [int]: the
    runs of "2147483648" and "2147483649" denote different values, the
    first the smaller, and yet the first string is not less than the
    second. *)
Lemma digit_rule_fails_out_of_range :
  digit_leading "2147483648" = true /\
  digit_leading "2147483649" = true /\
  digit_run_value "2147483648" <> digit_run_value "2147483649" /\
  compare_path_natural "2147483648" "2147483649" <>
  (digit_run_value "2147483648" <? digit_run_value "2147483649").
Proof.
  repeat split; try reflexivity; vm_compute; discriminate.
Qed.

(** C5, as the code has it -- no guard beyond the clamp of the stream
    extraction: a leading digit run whose value exceeds [INT_MAX] is read as
    [INT_MAX] and the rest of the string is dropped, so any two strings with
    such runs are neither less nor greater than each other, whatever the
    values of the runs and whatever follows them. *)
Theorem out_of_range_runs_equivalent (a b : path_t) :
  digit_leading a = true -> digit_leading b = true ->
  INT_MAX < digit_run_value a -> INT_MAX < digit_run_value b ->
  compare_path_natural a b = false /\ compare_path_natural b a = false.
Proof.
  intros Da Db Ra Rb.
  rewrite (compare_digit_leading a b Da Db), (compare_digit_leading b a Db Da).
  cbv zeta. rewrite !Z.min_r by lia. rewrite Z.eqb_refl.
  unfold rest_after_number.
  apply Z.leb_gt in Ra, Rb. rewrite Ra, Rb. split; reflexivity.
Qed.

Lemma out_of_range_runs_equivalent_witness :
  compare_path_natural "3000000000.png" "4000000000.jpg" = false /\
  compare_path_natural "4000000000.jpg" "3000000000.png" = false.
Proof.
  apply out_of_range_runs_equivalent; reflexivity.
Defined.

(** C5 as written fails: both runs of "99999999998" and "99999999999" are
    outside the range of [int], the first denotes the smaller value, and the
    first string is not less than the second. *)
Lemma out_of_range_runs_not_ordered :
  INT_MAX < digit_run_value "99999999998" /\
  INT_MAX < digit_run_value "99999999999" /\
  digit_run_value "99999999998" < digit_run_value "99999999999" /\
  compare_path_natural "99999999998" "99999999999" = false /\
  compare_path_natural "99999999999" "99999999998" = false.
Proof. repeat split. Qed.

(** C8 -- termination: every tail call of [compare_path_natural] is on two
    strictly shorter strings, an activation with an empty operand returns
    without a call, and the comparison returns its value within one
    activation more than the shorter operand has characters. *)
Theorem compare_path_natural_terminates :
  (forall a b a' b',
      compare_path_natural_body a b = Recurse a' b' ->
      (String.length a' < String.length a)%nat /\
      (String.length b' < String.length b)%nat) /\
  (forall a b,
      a = EmptyString \/ b = EmptyString ->
      exists r, compare_path_natural_body a b = Return r) /\
  (forall a b calls,
      (Nat.min (String.length a) (String.length b) < calls)%nat ->
      compare_path_natural_within calls a b = Some (compare_path_natural a b)).
Proof.
  split; [|split].
  - apply body_recurse_shorter.
  - intros a b H. eexists. apply body_empty.
    destruct H as [-> | ->]; [reflexivity | apply orb_true_r].
  - intros a b calls. apply within_compare.
Qed.

Lemma compare_path_natural_terminates_witness :
  ((String.length "b" < String.length "ab")%nat /\
   (String.length "C" < String.length "AC")%nat) /\
  (exists r, compare_path_natural_body "" "x" = Return r) /\
  compare_path_natural_within 9 "img007.png" "img7.png" =
  Some (compare_path_natural "img007.png" "img7.png").
Proof.
  destruct compare_path_natural_terminates as [H1 [H2 H3]].
  split; [|split].
  - apply (H1 "ab" "AC"). reflexivity.
  - apply H2. now left.
  - apply H3. simpl. lia.
Defined.

(** C3 -- [compare_path_natural] is a strict weak ordering: irreflexive,
    asymmetric, transitive, with transitive incomparability; and
    file1.png < file2.png < file10.png. *)
Theorem compare_path_natural_strict_weak_ordering :
  (forall a, compare_path_natural a a = false) /\
  (forall a b,
      ~ (compare_path_natural a b = true /\ compare_path_natural b a = true)) /\
  (forall a b c,
      compare_path_natural a b = true -> compare_path_natural b c = true ->
      compare_path_natural a c = true) /\
  (forall a b c, equivalent a b -> equivalent b c -> equivalent a c) /\
  compare_path_natural "file1.png" "file2.png" = true /\
  compare_path_natural "file2.png" "file10.png" = true /\
  compare_path_natural "file1.png" "file10.png" = true.
Proof.
  destruct compare_path_natural_swo as [Irr Asym Trans Eqv].
  repeat split; try reflexivity.
  - apply Irr.
  - intros a b [H1 H2]. rewrite (Asym a b H1) in H2. discriminate.
  - apply Trans.
  - destruct H as [H1 H2], H0 as [H3 H4]. now apply (Eqv a b c).
  - destruct H as [H1 H2], H0 as [H3 H4]. now apply (Eqv a b c).
Qed.

Lemma compare_path_natural_strict_weak_ordering_witness :
  compare_path_natural "f1.png" "f20.png" = true /\
  equivalent "a1" "a001".
Proof.
  destruct compare_path_natural_strict_weak_ordering as [_ [_ [T [E _]]]].
  split.
  - apply (T "f1.png" "f2.png" "f20.png"); reflexivity.
  - apply (E "a1" "A01" "a001"); split; reflexivity.
Defined.

(** ** Sorted ranges *)

Section StrictWeakOrder.
Context {A : Type} (comp : A -> A -> bool).
Hypothesis comp_swo : strict_weak_order comp.

(** "Not greater" is transitive. *)
Lemma not_greater_trans (x y z : A) :
  comp y x = false -> comp z y = false -> comp z x = false.
Proof.
  destruct comp_swo as [Irr Asym Trans Eqv].
  intros Hyx Hzy.
  destruct (comp z x) eqn:Hzx; [exfalso | reflexivity].
  destruct (comp x y) eqn:Hxy.
  - rewrite (Trans z x y Hzx Hxy) in Hzy. discriminate.
  - destruct (comp y z) eqn:Hyz.
    + rewrite (Trans y z x Hyz Hzx) in Hyx. discriminate.
    + destruct (Eqv x y z Hxy Hyx Hyz Hzy) as [_ H]. congruence.
Qed.

Lemma is_sorted_tail (x : A) (v : list A) :
  is_sorted comp (x :: v) = true -> is_sorted comp v = true.
Proof.
  simpl. destruct v as [|y v]; [reflexivity|].
  intros H. now apply andb_true_iff in H.
Qed.

Lemma is_sorted_strongly (v : list A) :
  is_sorted comp v = true ->
  StronglySorted (fun x y => comp y x = false) v.
Proof.
  induction v as [|x v IH]; intros H; constructor.
  - apply IH. now apply is_sorted_tail in H.
  - pose proof (is_sorted_tail _ _ H) as Ht. specialize (IH Ht).
    destruct v as [|y v]; constructor.
    + simpl in H. apply andb_true_iff in H. now apply negb_true_iff.
    + simpl in H. apply andb_true_iff in H. destruct H as [Hyx _].
      apply negb_true_iff in Hyx.
      inversion IH as [|? ? _ Hall]; subst.
      eapply Forall_impl; [|exact Hall].
      intros z Hzy. now apply (not_greater_trans x y z).
Qed.

Lemma insert_before_greater_perm (x : A) (v : list A) :
  Permutation (x :: v) (insert_before_greater comp x v).
Proof.
  induction v as [|y v IH]; simpl; [reflexivity|].
  destruct (comp x y); [reflexivity|].
  rewrite perm_swap. now constructor.
Qed.

Lemma insert_before_greater_sorted (x : A) (v : list A) :
  is_sorted comp v = true ->
  is_sorted comp (insert_before_greater comp x v) = true.
Proof.
  destruct comp_swo as [Irr Asym Trans Eqv].
  induction v as [|y v IH]; intros H; [reflexivity|].
  cbn [insert_before_greater].
  destruct (comp x y) eqn:Hxy.
  - cbn [is_sorted]. rewrite (Asym x y Hxy). exact H.
  - pose proof (is_sorted_tail _ _ H) as Ht. specialize (IH Ht).
    destruct v as [|z v].
    + simpl. now rewrite Hxy.
    + cbn [insert_before_greater] in *.
      simpl in H. apply andb_true_iff in H. destruct H as [Hzy _].
      destruct (comp x z).
      * cbn [is_sorted] in *. rewrite Hxy. exact IH.
      * cbn [is_sorted] in *. rewrite Hzy. exact IH.
Qed.

Lemma insertion_sort_perm (v : list A) :
  Permutation v (insertion_sort comp v).
Proof.
  induction v as [|x v IH]; simpl; [reflexivity|].
  rewrite <- insert_before_greater_perm. now constructor.
Qed.

Lemma insertion_sort_sorted (v : list A) :
  is_sorted comp (insertion_sort comp v) = true.
Proof.
  induction v as [|x v IH]; simpl; [reflexivity|].
  now apply insert_before_greater_sorted.
Qed.
End StrictWeakOrder.

Lemma insertion_sort_contract : std_sort_contract insertion_sort.
Proof.
  intros comp v Hswo. split.
  - apply insertion_sort_perm.
  - now apply insertion_sort_sorted.
Qed.

(** Two sorted arrangements of the same elements under an antisymmetric
    relation are the same list. *)
Lemma sorted_perm_eq {K : Type} (R : K -> K -> Prop) :
  (forall x y, R x y -> R y x -> x = y) ->
  forall k l,
    StronglySorted R k -> StronglySorted R l -> Permutation k l -> k = l.
Proof.
  intros Anti. induction k as [|x k IH]; intros l Sk Sl P.
  - apply Permutation_nil in P. now subst.
  - destruct l as [|y l]; [apply Permutation_sym, Permutation_nil in P; discriminate|].
    inversion Sk as [|? ? Sk' Fk]; subst.
    inversion Sl as [|? ? Sl' Fl]; subst.
    assert (E : x = y).
    { assert (Ix : In x (y :: l)) by (eapply Permutation_in; [exact P | now left]).
      assert (Iy : In y (x :: k))
        by (eapply Permutation_in; [apply Permutation_sym; exact P | now left]).
      destruct Ix as [->|Ix]; [reflexivity|].
      destruct Iy as [->|Iy]; [reflexivity|].
      rewrite Forall_forall in Fk, Fl. apply Anti; auto. }
    subst y. f_equal. apply IH; auto.
    now apply Permutation_cons_inv in P.
Qed.

Lemma sorted_keys (v : list path_t) :
  is_sorted compare_path_natural v = true ->
  StronglySorted (fun k l => keys_lt l k = false) (map keys v).
Proof.
  intros H. apply (is_sorted_strongly _ compare_path_natural_swo) in H.
  induction H as [|x v Sv IH Fv]; simpl; constructor; [assumption|].
  rewrite Forall_map. eapply Forall_impl; [|exact Fv].
  intros y Hy. simpl in Hy. now rewrite compare_keys in Hy.
Qed.

Lemma sorted_perm_same_keys (v w : list path_t) :
  Permutation v w ->
  is_sorted compare_path_natural v = true ->
  is_sorted compare_path_natural w = true ->
  map keys v = map keys w.
Proof.
  intros P Sv Sw.
  apply (sorted_perm_eq (fun k l => keys_lt l k = false)).
  - intros k l H1 H2. now apply keys_lt_total.
  - now apply sorted_keys.
  - now apply sorted_keys.
  - now apply Permutation_map.
Qed.

Lemma same_keys_equivalent (v : list path_t) :
  forall w, map keys v = map keys w -> Forall2 equivalent v w.
Proof.
  induction v as [|x v IH]; intros [|y w] H; simpl in H; try discriminate.
  - constructor.
  - injection H as Hk Ht. constructor; [now apply equivalent_keys | now apply IH].
Qed.

Lemma same_keys_eq (v : list path_t) :
  forall w,
    (forall x y, In x v -> In y w -> equivalent x y -> x = y) ->
    map keys v = map keys w -> v = w.
Proof.
  induction v as [|x v IH]; intros [|y w] Inj H; simpl in H; try discriminate.
  - reflexivity.
  - injection H as Hk Ht. f_equal.
    + apply Inj; [now left | now left | now apply equivalent_keys].
    + apply IH; [|assumption].
      intros a b Ia Ib. apply Inj; now right.
Qed.

(** Where no two different elements are equivalent, the sorted arrangement
    is unique. *)
Lemma sorted_perm_unique (u v w : list path_t) :
  (forall x y, In x u -> In y u -> equivalent x y -> x = y) ->
  Permutation u v -> Permutation u w ->
  is_sorted compare_path_natural v = true ->
  is_sorted compare_path_natural w = true ->
  v = w.
Proof.
  intros Inj Pv Pw Sv Sw.
  apply same_keys_eq.
  - intros x y Ix Iy. apply Inj.
    + eapply Permutation_in; [apply Permutation_sym; exact Pv | exact Ix].
    + eapply Permutation_in; [apply Permutation_sym; exact Pw | exact Iy].
  - apply sorted_perm_same_keys; try assumption.
    now rewrite <- Pv.
Qed.

(** ** The directory lister *)

Lemma readdir_loop_eq (dir : list dirent) :
  forall imagepaths,
    readdir_loop dir imagepaths = (imagepaths ++ regular_names dir)%list.
Proof.
  unfold regular_names.
  induction dir as [|ent dir IH]; intros acc; simpl.
  - now rewrite app_nil_r.
  - destruct (d_type ent =? DT_REG); simpl.
    + rewrite IH, <- app_assoc. reflexivity.
    + apply IH.
Qed.

Lemma list_directory_opened
    (opendir : directory_stream)
    (std_sort : (path_t -> path_t -> bool) -> list path_t -> list path_t)
    (dirpath : path_t) (imagepaths : list path_t) (dir : list dirent) :
  opendir dirpath = Some dir ->
  list_directory opendir std_sort dirpath imagepaths =
  (0, std_sort compare_path_natural (regular_names dir)).
Proof.
  intros H. unfold list_directory. rewrite H, readdir_loop_eq. reflexivity.
Qed.

Lemma example_names_distinct (x y : path_t) :
  In x ["img2.jpg"; "img10.jpg"; "img1.jpg"; "IMG3.jpg"] ->
  In y ["img2.jpg"; "img10.jpg"; "img1.jpg"; "IMG3.jpg"] ->
  equivalent x y -> x = y.
Proof.
  unfold equivalent. simpl.
  intros [<-|[<-|[<-|[<-|[]]]]] [<-|[<-|[<-|[<-|[]]]]] [H1 H2];
    try reflexivity; vm_compute in H1; vm_compute in H2; discriminate.
Qed.

(** C1 -- for a directory that opens, [list_directory] returns 0 and leaves
    in the vector exactly the names of the entries classified as regular
    files (the names as enumerated, each as often as it was enumerated),
    sorted ascending by [compare_path_natural]; when those names are
    img2.jpg, img10.jpg, img1.jpg and IMG3.jpg, the vector is
    [img1.jpg, img2.jpg, IMG3.jpg, img10.jpg]. *)
Theorem list_directory_sorted_regular_files
    (std_sort : (path_t -> path_t -> bool) -> list path_t -> list path_t)
    (opendir : directory_stream)
    (dirpath : path_t) (imagepaths : list path_t) (dir : list dirent) :
  std_sort_contract std_sort ->
  opendir dirpath = Some dir ->
  let result := list_directory opendir std_sort dirpath imagepaths in
  fst result = 0 /\
  Permutation (regular_names dir) (snd result) /\
  StronglySorted (fun x y => compare_path_natural y x = false) (snd result) /\
  (Permutation (regular_names dir)
               ["img2.jpg"; "img10.jpg"; "img1.jpg"; "IMG3.jpg"] ->
   snd result = ["img1.jpg"; "img2.jpg"; "IMG3.jpg"; "img10.jpg"]).
Proof.
  intros Hsort Hopen result. subst result.
  rewrite (list_directory_opened _ _ _ _ _ Hopen). simpl fst; simpl snd.
  destruct (Hsort compare_path_natural (regular_names dir)
                  compare_path_natural_swo) as [P S].
  repeat split.
  - exact P.
  - now apply (is_sorted_strongly _ compare_path_natural_swo).
  - intros Pn.
    apply (sorted_perm_unique ["img2.jpg"; "img10.jpg"; "img1.jpg"; "IMG3.jpg"]).
    + apply example_names_distinct.
    + now rewrite <- Pn.
    + apply (Permutation_trans (l' := insertion_sort compare_path_natural
               ["img2.jpg"; "img10.jpg"; "img1.jpg"; "IMG3.jpg"]));
        [apply (insertion_sort_perm compare_path_natural) | reflexivity].
    + exact S.
    + reflexivity.
Qed.

Lemma list_directory_sorted_regular_files_witness :
  list_directory frames_only insertion_sort "frames" ["stale.jpg"] =
  (0, ["img1.jpg"; "img2.jpg"; "IMG3.jpg"; "img10.jpg"]).
Proof.
  pose proof (list_directory_sorted_regular_files
                insertion_sort frames_only "frames" ["stale.jpg"] _
                insertion_sort_contract eq_refl) as H.
  cbv zeta in H. destruct H as [H0 [_ [_ H]]].
  rewrite (surjective_pairing (list_directory _ _ _ _)).
  rewrite H0, H; [reflexivity|]. apply Permutation_refl.
Defined.

(** C4 -- a [dirpath] that does not open makes [list_directory] return a
    nonzero value with the vector empty, whatever it held before; one that
    opens makes it return 0. *)
Theorem list_directory_status
    (opendir : directory_stream)
    (std_sort : (path_t -> path_t -> bool) -> list path_t -> list path_t)
    (dirpath : path_t) (imagepaths : list path_t) :
  (opendir dirpath = None ->
   fst (list_directory opendir std_sort dirpath imagepaths) <> 0 /\
   snd (list_directory opendir std_sort dirpath imagepaths) = []) /\
  (opendir dirpath <> None ->
   fst (list_directory opendir std_sort dirpath imagepaths) = 0).
Proof.
  unfold list_directory. split.
  - intros ->. simpl. split; [discriminate | reflexivity].
  - destruct (opendir dirpath); [reflexivity | congruence].
Qed.

Lemma list_directory_status_witness :
  (fst (list_directory frames_only insertion_sort "missing" ["stale.jpg"]) <> 0 /\
   snd (list_directory frames_only insertion_sort "missing" ["stale.jpg"]) = []) /\
  fst (list_directory frames_only insertion_sort "frames" ["stale.jpg"]) = 0.
Proof.
  split.
  - apply (proj1 (list_directory_status frames_only insertion_sort
                    "missing" ["stale.jpg"])). reflexivity.
  - apply (proj2 (list_directory_status frames_only insertion_sort
                    "frames" ["stale.jpg"])). discriminate.
Defined.

(** C9, as the code has it -- sorting a sequence that is already sorted
    ascending by [compare_path_natural] returns a sequence whose elements
    are, position by position, equivalent under the ordering to those of the
    input; it is the identical sequence when no two different elements of
    the input are equivalent.  [std::sort] is not a stable sort. *)
Theorem sort_of_sorted
    (std_sort : (path_t -> path_t -> bool) -> list path_t -> list path_t)
    (v : list path_t) :
  std_sort_contract std_sort ->
  is_sorted compare_path_natural v = true ->
  Forall2 equivalent v (std_sort compare_path_natural v) /\
  ((forall x y, In x v -> In y v -> equivalent x y -> x = y) ->
   std_sort compare_path_natural v = v).
Proof.
  intros Hsort Sv.
  destruct (Hsort compare_path_natural v compare_path_natural_swo) as [P S].
  split.
  - apply same_keys_equivalent. now apply sorted_perm_same_keys.
  - intros Inj. symmetry.
    apply (sorted_perm_unique v); auto.
Qed.

Lemma sort_of_sorted_witness :
  insertion_sort compare_path_natural ["f1.png"; "f2.png"; "f10.png"; "f20.png"] =
  ["f1.png"; "f2.png"; "f10.png"; "f20.png"].
Proof.
  apply (proj2 (sort_of_sorted
                  insertion_sort ["f1.png"; "f2.png"; "f10.png"; "f20.png"]
                  insertion_sort_contract eq_refl)).
  unfold equivalent. simpl.
  intros x y [<-|[<-|[<-|[<-|[]]]]] [<-|[<-|[<-|[<-|[]]]]] [H1 H2];
    try reflexivity; vm_compute in H1; vm_compute in H2; discriminate.
Defined.

(** C9 as written fails: [std::sort] is not a stable sort.  The twenty
    names of [tied_names] are pairwise equivalent, so the sequence is sorted
    as it stands; the introsort of GNU libstdc++ finds more than 16 elements,
    swaps the middle one to the front as pivot and then, no element being
    less than another, swaps the pairs it meets from both ends: what comes
    back is sorted, and is another sequence. *)
Lemma sort_of_sorted_may_reorder :
  is_sorted compare_path_natural tied_names = true /\
  libstdcxx_sort compare_path_natural tied_names <> tied_names /\
  is_sorted compare_path_natural
            (libstdcxx_sort compare_path_natural tied_names) = true.
Proof.
  split; [vm_compute; reflexivity|].
  split; [vm_compute; discriminate | vm_compute; reflexivity].
Qed.

(** ** Extension splitting *)

Lemma rfind_none (s : string) (c : ascii) :
  rfind s c = None <-> occurs c s = false.
Proof.
  induction s as [|x s IH]; simpl; [tauto|].
  destruct (rfind s c) as [i|].
  - split; [discriminate|]. intros H. apply orb_false_iff in H.
    destruct H as [_ H]. apply IH in H. discriminate.
  - destruct (Ascii.eqb x c); simpl; [split; discriminate|].
    split; intros _; [now apply IH | reflexivity].
Qed.

Lemma rfind_some (s : string) (c : ascii) :
  forall i,
    rfind s c = Some i ->
    s = substr0 s i ++ String c (substr s (i + 1)) /\
    occurs c (substr s (i + 1)) = false.
Proof.
  induction s as [|x s IH]; simpl; intros i H; [discriminate|].
  destruct (rfind s c) as [j|] eqn:E.
  - injection H as <-. destruct (IH j eq_refl) as [H1 H2].
    cbn [substr0 Nat.add substr]. simpl. split; [now rewrite <- H1 | exact H2].
  - destruct (Ascii.eqb_spec x c) as [->|N]; [|discriminate].
    injection H as <-. cbn [substr0 Nat.add]. rewrite !substr_0.
    split; [reflexivity | now apply rfind_none].
Qed.

(** C10 -- a path with a '.' is the name without extension, a '.', and the
    extension, the extension holding no '.' (the split is at the last one);
    a path without '.' is its own name without extension and has the empty
    extension. *)
Theorem split_extension :
  (forall path,
      occurs dot path = true ->
      get_file_name_without_extension path ++ "." ++ get_file_extension path
      = path /\
      occurs dot (get_file_extension path) = false) /\
  (forall path,
      occurs dot path = false ->
      get_file_name_without_extension path = path /\
      get_file_extension path = EmptyString).
Proof.
  unfold get_file_name_without_extension, get_file_extension. split.
  - intros path H.
    destruct (rfind path dot) as [d|] eqn:E.
    + destruct (rfind_some path dot d E) as [H1 H2].
      split; [symmetry; exact H1 | exact H2].
    + apply rfind_none in E. congruence.
  - intros path H. apply rfind_none in H. rewrite H. now split.
Qed.

Lemma split_extension_witness :
  (get_file_name_without_extension "frame.0001.png" ++ "." ++
   get_file_extension "frame.0001.png" = "frame.0001.png" /\
   occurs dot (get_file_extension "frame.0001.png") = false) /\
  (get_file_name_without_extension "Makefile" = "Makefile" /\
   get_file_extension "Makefile" = "").
Proof.
  split.
  - apply (proj1 split_extension). reflexivity.
  - apply (proj2 split_extension). reflexivity.
Defined.

(** ** The comparator on the names of the specification *)

Example natural_order_f :
  compare_path_natural "f1.png" "f2.png" = true /\
  compare_path_natural "f2.png" "f10.png" = true /\
  compare_path_natural "f10.png" "f20.png" = true /\
  compare_path_natural "f10.png" "f2.png" = false.
Proof. repeat split. Qed.

Example digit_before_letter :
  compare_path_natural "1abc" "abc" = true /\
  compare_path_natural "abc" "1abc" = false.
Proof. split; reflexivity. Qed.

Example extension_of_frame :
  get_file_name_without_extension "frame.0001.png" = "frame.0001" /\
  get_file_extension "frame.0001.png" = "png".
Proof. split; reflexivity. Qed.

(** A newline after a digit run ends what [std::getline] hands on: the
    comparison of "1<newline>a" with "1<newline>b" stops behind the numbers,
    although the text behind them is ordered. *)
Example newline_ends_remainder :
  let nl := String newline EmptyString in
  compare_path_natural ("1" ++ nl ++ "a") ("1" ++ nl ++ "b") = false /\
  compare_path_natural ("1" ++ nl ++ "b") ("1" ++ nl ++ "a") = false /\
  compare_path_natural (nl ++ "a") (nl ++ "b") = true.
Proof. repeat split. Qed.

(** The largest [int] against a run beyond it: both read as [INT_MAX], and
    only the string in range keeps its remainder. *)
Example int_max_against_overflow :
  compare_path_natural "2147483648x" "2147483647x" = true /\
  compare_path_natural "2147483647x" "2147483648x" = false.
Proof. split; reflexivity. Qed.

(** * Further properties of the header *)

(** ** The comparator *)

Lemma digit_leading_keys (s : string) :
  digit_leading s = true ->
  keys s = Num (Z.min (digit_run_value s) INT_MAX) :: keys (rest_after_number s).
Proof.
  intros D. rewrite keys_unfold.
  assert (E : empty s = false)
    by (unfold digit_leading in D; destruct (empty s); [discriminate | reflexivity]).
  rewrite E, (next_token_digit s D). reflexivity.
Qed.

Lemma non_digit_leading_keys (c : ascii) (s : string) :
  isdigit (int_of_char c) = false ->
  keys (String c s) = Chr (toupper (int_of_char c)) :: keys s.
Proof.
  intros D. rewrite keys_unfold. cbn [empty].
  rewrite (next_token_char (String c s)) by exact D.
  now rewrite substr_tail.
Qed.

(** X1 -- digit against non-digit, lines 41-44: a string that starts with a
    digit is less than every non-empty string that does not, and such a
    string is never less than one that starts with a digit. *)
Theorem digit_before_non_digit (a b : path_t) :
  digit_leading a = true ->
  b <> EmptyString -> isdigit (int_of_char (front b)) = false ->
  compare_path_natural a b = true /\ compare_path_natural b a = false.
Proof.
  intros Da Hb Db.
  destruct a as [|c a]; [discriminate|]. destruct b as [|d b]; [congruence|].
  unfold digit_leading in Da. cbn [empty negb andb front] in Da, Db.
  rewrite !compare_path_natural_unfold. unfold compare_path_natural_body.
  cbn [empty orb front]. cbv zeta. rewrite Da, Db. split; reflexivity.
Qed.

Lemma digit_before_non_digit_witness :
  compare_path_natural "9.png" ".hidden" = true /\
  compare_path_natural ".hidden" "9.png" = false.
Proof.
  apply digit_before_non_digit; [reflexivity | discriminate | reflexivity].
Defined.

(** X2 -- the comparison does not see the case of letters: replacing either
    operand by a case permutation of it leaves the result unchanged. *)
Theorem compare_case_insensitive (a a' b b' : path_t) :
  case_permutation a a' -> case_permutation b b' ->
  compare_path_natural a b = compare_path_natural a' b'.
Proof.
  intros Ha Hb. rewrite !compare_keys.
  now rewrite (upper_image_keys a a' Ha), (upper_image_keys b b' Hb).
Qed.

Lemma compare_case_insensitive_witness :
  compare_path_natural "Img2.JPG" "iMG10.jpg" =
  compare_path_natural "img2.jpg" "IMG10.JPG".
Proof. apply compare_case_insensitive; reflexivity. Defined.

Lemma leading_zero_keys (s : string) :
  digit_leading s = true -> keys (String "0" s) = keys s.
Proof.
  intros D.
  assert (D0 : digit_leading (String "0" s) = true) by reflexivity.
  rewrite (digit_leading_keys _ D0), (digit_leading_keys _ D).
  assert (V : digit_run_value (String "0" s) = digit_run_value s) by reflexivity.
  unfold rest_after_number. rewrite V. reflexivity.
Qed.

(** X3 -- leading zeros: a zero put in front of a string that starts with a
    digit changes no comparison, on either side. *)
Theorem leading_zero_ignored (s t : path_t) :
  digit_leading s = true ->
  compare_path_natural (String "0" s) t = compare_path_natural s t /\
  compare_path_natural t (String "0" s) = compare_path_natural t s.
Proof.
  intros D. rewrite !compare_keys, (leading_zero_keys s D). now split.
Qed.

Lemma leading_zero_ignored_witness :
  compare_path_natural "07.png" "8.png" = compare_path_natural "7.png" "8.png" /\
  compare_path_natural "8.png" "07.png" = compare_path_natural "8.png" "7.png".
Proof. apply leading_zero_ignored. reflexivity. Defined.

Lemma compare_digit_free (a b : path_t) :
  digit_free a = true -> digit_free b = true ->
  compare_path_natural a b = lex_ltb (upper_image a) (upper_image b).
Proof.
  revert b; induction a as [|c a IH]; intros [|d b] Fa Fb.
  - reflexivity.
  - reflexivity.
  - rewrite compare_path_natural_unfold, body_empty by apply orb_true_r.
    reflexivity.
  - cbn [digit_free] in Fa, Fb.
    apply andb_true_iff in Fa, Fb. destruct Fa as [Dc Fa], Fb as [Dd Fb].
    apply negb_true_iff in Dc, Dd.
    rewrite (compare_cons_non_digit c d a b Dc Dd). cbn [upper_image lex_ltb].
    destruct (toupper (int_of_char c) =? toupper (int_of_char d));
      [now apply IH | reflexivity].
Qed.

(** X4 -- on strings without digits the comparator is the lexicographic
    order of the upper-cased characters, a proper prefix being less. *)
Theorem digit_free_lexicographic (a b : path_t) :
  digit_free a = true -> digit_free b = true ->
  compare_path_natural a b = lex_ltb (upper_image a) (upper_image b).
Proof. apply compare_digit_free. Qed.

Lemma digit_free_lexicographic_witness :
  compare_path_natural "Readme.md" "readme.txt" =
  lex_ltb (upper_image "Readme.md") (upper_image "readme.txt").
Proof. apply digit_free_lexicographic; reflexivity. Defined.

(** X5 -- a common digit-free prefix cancels, whatever its case on either
    side; hence a digit-free string is less than each of its proper
    extensions. *)
Theorem digit_free_prefix_cancels (p q a b : path_t) :
  digit_free p = true -> case_permutation p q ->
  compare_path_natural (p ++ a) (q ++ b) = compare_path_natural a b /\
  (b <> EmptyString -> compare_path_natural p (q ++ b) = true).
Proof.
  intros F P.
  assert (C : forall x y, compare_path_natural (p ++ x) (q ++ y)
                          = compare_path_natural x y).
  { revert q F P. unfold case_permutation.
    induction p as [|c p IH]; intros [|d q] F P x y; simpl in P;
      try discriminate; [reflexivity|].
    injection P as Hc Ht.
    cbn [digit_free] in F. apply andb_true_iff in F. destruct F as [Dc F].
    apply negb_true_iff in Dc.
    assert (Dd : isdigit (int_of_char d) = false)
      by (rewrite <- isdigit_toupper, <- Hc, isdigit_toupper; exact Dc).
    cbn [append]. rewrite (compare_cons_non_digit c d _ _ Dc Dd).
    rewrite Hc, Z.eqb_refl. now apply IH. }
  split; [apply C|].
  intros Hb. specialize (C EmptyString b).
  assert (E : p ++ "" = p) by (clear; induction p; simpl; congruence).
  rewrite E in C. rewrite C.
  destruct b; [congruence | reflexivity].
Qed.

Lemma digit_free_prefix_cancels_witness :
  compare_path_natural ("frame_" ++ "2.png") ("FRAME_" ++ "10.png") =
  compare_path_natural "2.png" "10.png" /\
  compare_path_natural "frame_" ("FRAME_" ++ "10.png") = true.
Proof.
  destruct (digit_free_prefix_cancels "frame_" "FRAME_" "2.png" "10.png"
              eq_refl eq_refl) as [H1 H2].
  split; [exact H1 | apply H2; discriminate].
Defined.

(** X6 -- at the upper bound of [int]: against a string whose leading run
    is out of range, a string whose run is below [INT_MAX] is less; one
    whose run is exactly [INT_MAX] is never less, and is greater as soon as
    a character other than a newline follows its run. *)
Theorem int_max_boundary (a b : path_t) :
  digit_leading a = true -> digit_leading b = true ->
  INT_MAX < digit_run_value b ->
  (digit_run_value a < INT_MAX ->
   compare_path_natural a b = true /\ compare_path_natural b a = false) /\
  (digit_run_value a = INT_MAX ->
   compare_path_natural a b = false /\
   (after_digit_run a <> EmptyString ->
    front (after_digit_run a) <> newline ->
    compare_path_natural b a = true)).
Proof.
  intros Da Db Rb.
  rewrite (compare_digit_leading a b Da Db), (compare_digit_leading b a Db Da).
  cbv zeta. rewrite (Z.min_r (digit_run_value b)) by lia.
  assert (Eb : rest_after_number b = EmptyString).
  { unfold rest_after_number. apply Z.leb_gt in Rb. now rewrite Rb. }
  rewrite Eb. split.
  - intros Ra. rewrite Z.min_l by lia.
    destruct (Z.eqb_spec (digit_run_value a) INT_MAX) as [E|_]; [lia|].
    destruct (Z.eqb_spec INT_MAX (digit_run_value a)) as [E|_]; [lia|].
    split; [apply Z.ltb_lt | apply Z.ltb_ge]; lia.
  - intros Ra. rewrite Ra, Z.min_id, Z.eqb_refl. split.
    + rewrite compare_path_natural_unfold, body_empty by apply orb_true_r.
      simpl. apply andb_false_r.
    + intros Hne Hnl. unfold rest_after_number. rewrite Ra. cbn [Z.leb Z.compare].
      change (INT_MAX <=? INT_MAX) with true. cbv iota.
      destruct (after_digit_run a) as [|c r]; [congruence|].
      cbn [front] in Hnl. unfold line_of. cbn [read_line].
      destruct (Ascii.eqb_spec c newline) as [E|_]; [congruence|].
      destruct (read_line r) as [[line rest] nl]. reflexivity.
Qed.

Lemma int_max_boundary_witness :
  (compare_path_natural "2147483646.png" "2147483648.png" = true /\
   compare_path_natural "2147483648.png" "2147483646.png" = false) /\
  (compare_path_natural "2147483647.png" "2147483648.png" = false /\
   compare_path_natural "2147483648.png" "2147483647.png" = true).
Proof.
  split.
  - apply (proj1 (int_max_boundary "2147483646.png" "2147483648.png"
                    eq_refl eq_refl eq_refl)). reflexivity.
  - destruct (proj2 (int_max_boundary "2147483647.png" "2147483648.png"
                       eq_refl eq_refl eq_refl) eq_refl) as [H1 H2].
    split; [exact H1 | apply H2; discriminate].
Defined.

Lemma leading_digits_app_newline (s x : string) :
  leading_digits (s ++ String newline x) = leading_digits s.
Proof.
  induction s as [|c s IH]; [reflexivity|]. cbn [append leading_digits].
  destruct (isdigit (int_of_char c)); [now rewrite IH | reflexivity].
Qed.

Lemma after_digit_run_app_newline (s x : string) :
  after_digit_run (s ++ String newline x) = after_digit_run s ++ String newline x.
Proof.
  induction s as [|c s IH]; [reflexivity|]. cbn [append after_digit_run].
  destruct (isdigit (int_of_char c)); [exact IH | reflexivity].
Qed.

Lemma line_of_app_newline (r x : string) :
  line_of (r ++ String newline x) = line_of r.
Proof.
  unfold line_of. induction r as [|c r IH]; [reflexivity|].
  cbn [append read_line].
  destruct (Ascii.eqb c newline); [reflexivity|].
  destruct (read_line (r ++ String newline x)) as [[l1 r1] n1],
           (read_line r) as [[l2 r2] n2].
  simpl in *. now rewrite IH.
Qed.

(** X7 -- a newline behind a leading number ends the comparison there: a
    string that starts with a digit is equivalent to itself followed by a
    newline and any further text (the remainder is read with
    [std::getline], line 62). *)
Theorem text_after_newline_ignored (s x : path_t) :
  digit_leading s = true ->
  equivalent (s ++ String newline x) s.
Proof.
  intros D. apply equivalent_keys.
  assert (D' : digit_leading (s ++ String newline x) = true)
    by (destruct s; [discriminate | exact D]).
  rewrite (digit_leading_keys _ D'), (digit_leading_keys _ D).
  unfold rest_after_number, digit_run_value.
  rewrite leading_digits_app_newline, after_digit_run_app_newline,
    line_of_app_newline.
  reflexivity.
Qed.

Lemma text_after_newline_ignored_witness :
  equivalent ("12 monkeys" ++ String newline "part 2") "12 monkeys".
Proof. apply text_after_newline_ignored. reflexivity. Defined.

(** ** The directory lister *)

Lemma filter_permutation {A : Type} (f : A -> bool) (l l' : list A) :
  Permutation l l' -> Permutation (filter f l) (filter f l').
Proof.
  induction 1 as [|x l l' P IH|x y l|l l' l'' P1 IH1 P2 IH2]; simpl.
  - constructor.
  - destruct (f x); [now constructor | exact IH].
  - destruct (f x), (f y); try reflexivity. apply perm_swap.
  - now transitivity (filter f l').
Qed.

Lemma regular_names_permutation (dir dir' : list dirent) :
  Permutation dir dir' -> Permutation (regular_names dir) (regular_names dir').
Proof.
  intros P. unfold regular_names.
  now apply Permutation_map, filter_permutation.
Qed.

(** X8 -- the listing does not depend on the order in which [readdir]
    delivers the entries, nor on the implementation of [std::sort]: two
    listings of the same entries agree position by position up to
    equivalence of names, and are the same sequence when no two different
    regular names are equivalent. *)
Theorem listing_independent_of_enumeration
    (sort1 sort2 : (path_t -> path_t -> bool) -> list path_t -> list path_t)
    (opendir1 opendir2 : directory_stream)
    (dirpath : path_t) (v1 v2 : list path_t) (dir1 dir2 : list dirent) :
  std_sort_contract sort1 -> std_sort_contract sort2 ->
  opendir1 dirpath = Some dir1 -> opendir2 dirpath = Some dir2 ->
  Permutation dir1 dir2 ->
  let out1 := snd (list_directory opendir1 sort1 dirpath v1) in
  let out2 := snd (list_directory opendir2 sort2 dirpath v2) in
  Forall2 equivalent out1 out2 /\
  ((forall x y,
       In x (regular_names dir1) -> In y (regular_names dir1) ->
       equivalent x y -> x = y) ->
   out1 = out2).
Proof.
  intros C1 C2 O1 O2 P out1 out2. subst out1 out2.
  rewrite (list_directory_opened _ _ _ _ _ O1),
          (list_directory_opened _ _ _ _ _ O2). cbn [snd].
  destruct (C1 compare_path_natural (regular_names dir1)
               compare_path_natural_swo) as [P1 S1].
  destruct (C2 compare_path_natural (regular_names dir2)
               compare_path_natural_swo) as [P2 S2].
  pose proof (regular_names_permutation _ _ P) as Pn.
  split.
  - apply same_keys_equivalent, sorted_perm_same_keys; try assumption.
    rewrite <- P1, <- P2. exact Pn.
  - intros Inj. apply (sorted_perm_unique (regular_names dir1)); try assumption.
    now rewrite Pn.
Qed.

Lemma listing_independent_of_enumeration_witness :
  snd (list_directory frames_only insertion_sort "frames" []) =
  snd (list_directory
         (fun _ => Some [ mk_dirent "IMG3.jpg" DT_REG;
                          mk_dirent "img1.jpg" DT_REG;
                          mk_dirent "thumbs" DT_DIR;
                          mk_dirent ".." DT_DIR;
                          mk_dirent "img10.jpg" DT_REG;
                          mk_dirent "." DT_DIR;
                          mk_dirent "img2.jpg" DT_REG ])
         insertion_sort "frames" ["stale.jpg"]).
Proof.
  refine (proj2 (listing_independent_of_enumeration
                   insertion_sort insertion_sort frames_only _
                   "frames" [] ["stale.jpg"] _ _
                   insertion_sort_contract insertion_sort_contract
                   eq_refl eq_refl _) _).
  - apply (Permutation_trans
             (l' := insertion_sort (fun x y => compare_path_natural (d_name x) (d_name y))
                      [ mk_dirent "." DT_DIR; mk_dirent "img2.jpg" DT_REG;
                        mk_dirent "img10.jpg" DT_REG; mk_dirent "thumbs" DT_DIR;
                        mk_dirent "img1.jpg" DT_REG; mk_dirent ".." DT_DIR;
                        mk_dirent "IMG3.jpg" DT_REG ])).
    + apply insertion_sort_perm.
    + apply Permutation_sym.
      apply (Permutation_trans
               (l' := insertion_sort (fun x y => compare_path_natural (d_name x) (d_name y))
                        [ mk_dirent "IMG3.jpg" DT_REG; mk_dirent "img1.jpg" DT_REG;
                          mk_dirent "thumbs" DT_DIR; mk_dirent ".." DT_DIR;
                          mk_dirent "img10.jpg" DT_REG; mk_dirent "." DT_DIR;
                          mk_dirent "img2.jpg" DT_REG ])).
      * apply insertion_sort_perm.
      * vm_compute. apply Permutation_refl.
  - apply example_names_distinct.
Defined.

(** X9 -- only regular entries are listed, and all of them: for a directory
    that opens, a name is in the vector exactly when an entry of type
    [DT_REG] bears it, the vector has as many elements as there are such
    entries, and it is empty exactly when there is none.  Entries of any
    other type, [DT_UNKNOWN] and [DT_LNK] included, add nothing. *)
Theorem listing_holds_regular_entries_only
    (std_sort : (path_t -> path_t -> bool) -> list path_t -> list path_t)
    (opendir : directory_stream)
    (dirpath : path_t) (imagepaths : list path_t) (dir : list dirent) :
  std_sort_contract std_sort ->
  opendir dirpath = Some dir ->
  let out := snd (list_directory opendir std_sort dirpath imagepaths) in
  (forall name,
      In name out <->
      exists ent, In ent dir /\ d_type ent = DT_REG /\ d_name ent = name) /\
  List.length out
  = List.length (filter (fun ent => d_type ent =? DT_REG) dir) /\
  (out = [] <-> forall ent, In ent dir -> d_type ent <> DT_REG).
Proof.
  intros C O out. subst out.
  rewrite (list_directory_opened _ _ _ _ _ O). cbn [snd].
  destruct (C compare_path_natural (regular_names dir)
              compare_path_natural_swo) as [P _].
  assert (M : forall name,
             In name (regular_names dir) <->
             exists ent, In ent dir /\ d_type ent = DT_REG /\ d_name ent = name).
  { intros name. unfold regular_names. rewrite in_map_iff. split.
    - intros [ent [E I]]. apply filter_In in I. destruct I as [I R].
      exists ent. repeat split; try assumption. now apply Z.eqb_eq.
    - intros [ent [I [R E]]]. exists ent. split; [exact E|].
      apply filter_In. split; [exact I | now apply Z.eqb_eq]. }
  assert (E : regular_names dir = [] <->
              forall ent, In ent dir -> d_type ent <> DT_REG).
  { split.
    - intros H ent I R.
      assert (X : In (d_name ent) (regular_names dir))
        by (apply M; exists ent; auto).
      rewrite H in X. exact X.
    - intros H. destruct (regular_names dir) as [|n l] eqn:N; [reflexivity|].
      destruct (proj1 (M n) (or_introl eq_refl)) as [ent [I [R _]]].
      exfalso. now apply (H ent). }
  split; [|split].
  - intros name. rewrite <- M. split; intros H.
    + eapply Permutation_in; [apply Permutation_sym; exact P | exact H].
    + eapply Permutation_in; [exact P | exact H].
  - rewrite <- (Permutation_length P). unfold regular_names.
    apply length_map.
  - rewrite <- E. split; intros H.
    + rewrite H in P. now apply Permutation_sym, Permutation_nil in P.
    + rewrite H in *. now apply Permutation_nil in P.
Qed.

Lemma listing_holds_regular_entries_only_witness :
  let out :=
    snd (list_directory
           (fun _ => Some [ mk_dirent "." DT_DIR; mk_dirent ".." DT_DIR;
                            mk_dirent "frame1.png" 0; mk_dirent "frame2.png" DT_REG;
                            mk_dirent "link.png" 10 ])
           insertion_sort "frames" ["stale.jpg"]) in
  ~ In "frame1.png" out /\ In "frame2.png" out /\ List.length out = 1%nat.
Proof.
  intros out.
  destruct (listing_holds_regular_entries_only
              insertion_sort
              (fun _ => Some [ mk_dirent "." DT_DIR; mk_dirent ".." DT_DIR;
                               mk_dirent "frame1.png" 0; mk_dirent "frame2.png" DT_REG;
                               mk_dirent "link.png" 10 ])
              "frames" ["stale.jpg"] _
              insertion_sort_contract eq_refl) as [M [L _]].
  split; [|split].
  - intros H. apply M in H. destruct H as [ent [I [R E]]].
    simpl in I. destruct I as [<-|[<-|[<-|[<-|[<-|[]]]]]]; discriminate.
  - apply M. exists (mk_dirent "frame2.png" DT_REG).
    split; [simpl; tauto | split; reflexivity].
  - exact L.
Defined.

(** ** Extension splitting and the sanitizers *)

Lemma rfind_app_some (a b : string) (c : ascii) (i : nat) :
  rfind b c = Some i ->
  rfind (a ++ b) c = Some (String.length a + i)%nat.
Proof.
  intros H. induction a as [|x a IH]; [exact H|].
  cbn [append rfind String.length]. now rewrite IH.
Qed.

Lemma rfind_app_none (a b : string) (c : ascii) :
  rfind b c = None -> rfind (a ++ b) c = rfind a c.
Proof.
  intros H. induction a as [|x a IH]; [exact H|].
  cbn [append rfind]. now rewrite IH.
Qed.

Lemma substr0_app_right (a b : string) (i : nat) :
  substr0 (a ++ b) (String.length a + i) = a ++ substr0 b i.
Proof.
  induction a as [|x a IH]; [reflexivity|].
  cbn [append String.length Nat.add substr0]. now rewrite IH.
Qed.

Lemma substr_app_right (a b : string) (i : nat) :
  substr (a ++ b) (String.length a + i) = substr b i.
Proof.
  induction a as [|x a IH]; [reflexivity|].
  cbn [append String.length Nat.add substr]. exact IH.
Qed.

Lemma substr0_app_left (a b : string) (i : nat) :
  (i <= String.length a)%nat -> substr0 (a ++ b) i = substr0 a i.
Proof.
  revert i; induction a as [|x a IH]; intros [|i] H; simpl in *;
    try reflexivity; try lia.
  - now destruct b.
  - rewrite IH by lia. reflexivity.
Qed.

Lemma substr_app_left (a b : string) (i : nat) :
  (i <= String.length a)%nat -> substr (a ++ b) i = substr a i ++ b.
Proof.
  revert i; induction a as [|x a IH]; intros [|i] H; simpl in *;
    try reflexivity; try lia.
  - now rewrite substr_0.
  - apply IH. lia.
Qed.

Lemma rfind_in_range (s : string) (c : ascii) (i : nat) :
  rfind s c = Some i -> (i + 1 <= String.length s)%nat.
Proof.
  revert i; induction s as [|x s IH]; simpl; intros i H; [discriminate|].
  destruct (rfind s c) as [j|].
  - injection H as <-. specialize (IH j eq_refl). lia.
  - destruct (Ascii.eqb x c); [injection H as <-; lia | discriminate].
Qed.

(** X10 -- joining and splitting again: for an extension without '.', the
    two helpers applied to stem, '.', extension give back the stem and the
    extension, whatever the stem holds (other dots, nothing at all). *)
Theorem split_of_join (stem ext : path_t) :
  occurs dot ext = false ->
  get_file_name_without_extension (stem ++ "." ++ ext) = stem /\
  get_file_extension (stem ++ "." ++ ext) = ext.
Proof.
  intros H. apply rfind_none in H.
  assert (R : rfind (String dot ext) dot = Some O)
    by (cbn [rfind]; rewrite H; reflexivity).
  unfold get_file_name_without_extension, get_file_extension.
  change ("." ++ ext) with (String dot ext).
  rewrite (rfind_app_some stem _ _ _ R). split.
  - rewrite substr0_app_right. cbn [substr0].
    clear; induction stem; simpl; congruence.
  - rewrite <- Nat.add_assoc, substr_app_right. apply substr_tail.
Qed.

Lemma split_of_join_witness :
  (get_file_name_without_extension ("model.v4.6" ++ "." ++ "bin") = "model.v4.6" /\
   get_file_extension ("model.v4.6" ++ "." ++ "bin") = "bin") /\
  (get_file_name_without_extension ("" ++ "." ++ "gitignore") = "" /\
   get_file_extension ("" ++ "." ++ "gitignore") = "gitignore").
Proof. split; apply split_of_join; reflexivity. Defined.

(** X11 -- the helpers know nothing of directories.  A prefix put in front
    of a name that holds a '.' goes to the stem and leaves the extension
    alone; in front of a name without '.', a '.' of the prefix becomes the
    split point, and the extension is the tail of the prefix followed by the
    whole name. *)
Theorem split_of_prefixed (prefix name : path_t) :
  (occurs dot name = true ->
   get_file_name_without_extension (prefix ++ name)
   = prefix ++ get_file_name_without_extension name /\
   get_file_extension (prefix ++ name) = get_file_extension name) /\
  (occurs dot name = false -> occurs dot prefix = true ->
   get_file_name_without_extension (prefix ++ name)
   = get_file_name_without_extension prefix /\
   get_file_extension (prefix ++ name) = get_file_extension prefix ++ name).
Proof.
  unfold get_file_name_without_extension, get_file_extension. split.
  - intros H. destruct (rfind name dot) as [i|] eqn:E.
    + rewrite (rfind_app_some prefix _ _ _ E). split.
      * apply substr0_app_right.
      * rewrite <- Nat.add_assoc. apply substr_app_right.
    + apply rfind_none in E. congruence.
  - intros Hn Hp. apply rfind_none in Hn. rewrite (rfind_app_none _ _ _ Hn).
    destruct (rfind prefix dot) as [j|] eqn:E.
    + pose proof (rfind_in_range _ _ _ E) as R. split.
      * apply substr0_app_left. lia.
      * apply substr_app_left. exact R.
    + apply rfind_none in E. congruence.
Qed.

Lemma split_of_prefixed_witness :
  (get_file_name_without_extension ("/opt/rife-v4.6/" ++ "0001.png")
   = "/opt/rife-v4.6/" ++ "0001" /\
   get_file_extension ("/opt/rife-v4.6/" ++ "0001.png") = "png") /\
  (get_file_name_without_extension ("/opt/rife-v4.6/" ++ "flownet")
   = "/opt/rife-v4" /\
   get_file_extension ("/opt/rife-v4.6/" ++ "flownet") = "6/flownet").
Proof.
  split.
  - apply (proj1 (split_of_prefixed "/opt/rife-v4.6/" "0001.png")). reflexivity.
  - apply (proj2 (split_of_prefixed "/opt/rife-v4.6/" "flownet")); reflexivity.
Defined.

(** X12 -- what a sanitizer returns passes its probe exactly when the path
    itself or the path under the executable directory does: the fallback is
    returned unprobed.  When the result does pass, sanitizing it again
    changes nothing. *)
Theorem sanitized_path_probe
    (fopen_rb : fopen_call) (stat : stat_call)
    (executable_directory path : path_t) :
  let file := sanitize_filepath fopen_rb executable_directory path in
  let dir := sanitize_dirpath stat executable_directory path in
  filepath_is_readable fopen_rb file
  = filepath_is_readable fopen_rb path
    || filepath_is_readable fopen_rb (executable_directory ++ path) /\
  path_is_directory stat dir
  = path_is_directory stat path
    || path_is_directory stat (executable_directory ++ path) /\
  (filepath_is_readable fopen_rb file = true ->
   sanitize_filepath fopen_rb executable_directory file = file) /\
  (path_is_directory stat dir = true ->
   sanitize_dirpath stat executable_directory dir = dir).
Proof.
  cbv zeta. unfold sanitize_filepath, sanitize_dirpath.
  destruct (filepath_is_readable fopen_rb path) eqn:F,
           (path_is_directory stat path) eqn:D; cbn [orb];
    repeat split; try assumption; try reflexivity;
    try (now rewrite F); try (now rewrite D);
    intros H; now rewrite H.
Qed.

Lemma sanitized_path_probe_witness :
  sanitize_filepath (fun p => String.eqb p "/opt/rife/flownet.bin") "/opt/rife/"
    (sanitize_filepath (fun p => String.eqb p "/opt/rife/flownet.bin") "/opt/rife/"
       "flownet.bin")
  = "/opt/rife/flownet.bin" /\
  sanitize_dirpath (fun p => if String.eqb p "/opt/rife/models" then Some 16877 else None)
    "/opt/rife/"
    (sanitize_dirpath (fun p => if String.eqb p "/opt/rife/models" then Some 16877 else None)
       "/opt/rife/" "models")
  = "/opt/rife/models".
Proof.
  split.
  - apply (proj1 (proj2 (proj2 (sanitized_path_probe
             (fun p => String.eqb p "/opt/rife/flownet.bin") (fun _ => None)
             "/opt/rife/" "flownet.bin")))). reflexivity.
  - apply (proj2 (proj2 (proj2 (sanitized_path_probe
             (fun _ => false)
             (fun p => if String.eqb p "/opt/rife/models" then Some 16877 else None)
             "/opt/rife/" "models")))). reflexivity.
Defined.

Lemma get_file_extension_app (prefix name : path_t) :
  (occurs dot name = true ->
   get_file_extension (prefix ++ name) = get_file_extension name) /\
  (occurs dot name = false -> occurs dot prefix = true ->
   get_file_extension (prefix ++ name) = get_file_extension prefix ++ name).
Proof.
  unfold get_file_extension. split.
  - intros H. destruct (rfind name dot) as [i|] eqn:E.
    + rewrite (rfind_app_some prefix _ _ _ E).
      rewrite <- Nat.add_assoc. apply substr_app_right.
    + apply rfind_none in E. congruence.
  - intros Hn Hp. apply rfind_none in Hn. rewrite (rfind_app_none _ _ _ Hn).
    destruct (rfind prefix dot) as [j|] eqn:E.
    + apply substr_app_left. now apply rfind_in_range in E.
    + apply rfind_none in E. congruence.
Qed.

(** X13 -- sanitizing a file path keeps its extension when the path holds a
    '.'; for an unreadable path without '.', a '.' in the executable
    directory makes the extension of the result non-empty: the tail of the
    directory followed by the path. *)
Theorem sanitized_path_extension
    (fopen_rb : fopen_call) (executable_directory path : path_t) :
  (occurs dot path = true ->
   get_file_extension (sanitize_filepath fopen_rb executable_directory path)
   = get_file_extension path) /\
  (occurs dot path = false -> fopen_rb path = false ->
   occurs dot executable_directory = true ->
   get_file_extension (sanitize_filepath fopen_rb executable_directory path)
   = get_file_extension executable_directory ++ path).
Proof.
  unfold sanitize_filepath, filepath_is_readable. split.
  - intros H. destruct (fopen_rb path); cbn [negb]; [reflexivity|].
    now apply (proj1 (get_file_extension_app executable_directory path)).
  - intros Hn Hf He. rewrite Hf. cbn [negb].
    now apply (proj2 (get_file_extension_app executable_directory path)).
Qed.

Lemma sanitized_path_extension_witness :
  get_file_extension
    (sanitize_filepath (fun _ => false) "/opt/rife-v4.6/" "0001.png") = "png" /\
  get_file_extension
    (sanitize_filepath (fun _ => false) "/opt/rife-v4.6/" "flownet")
  = "6/" ++ "flownet".
Proof.
  split.
  - apply (proj1 (sanitized_path_extension (fun _ => false)
                    "/opt/rife-v4.6/" "0001.png")). reflexivity.
  - apply (proj2 (sanitized_path_extension (fun _ => false)
                    "/opt/rife-v4.6/" "flownet")); reflexivity.
Defined.

(** ** The executable directory *)

Lemma substr0_through (s : string) (c : ascii) :
  forall i, rfind s c = Some i ->
            substr0 s (i + 1) = substr0 s i ++ String c EmptyString.
Proof.
  induction s as [|x s IH]; simpl; intros i H; [discriminate|].
  destruct (rfind s c) as [j|] eqn:E.
  - injection H as <-. cbn [Nat.add substr0 append]. now rewrite (IH j eq_refl).
  - destruct (Ascii.eqb_spec x c) as [->|N]; [|discriminate].
    injection H as <-. cbn [Nat.add substr0 append]. now destruct s.
Qed.

(** X14 -- [get_executable_directory] returns exactly when the path in the
    buffer holds a '/'.  What it returns ends in '/', and the path is the
    result followed by a name without '/': the result is the path up to and
    including its last '/'. *)
Theorem executable_directory_ends_in_slash (filepath : string) :
  (get_executable_directory filepath = None <-> occurs slash filepath = false) /\
  (forall dir,
      get_executable_directory filepath = Some dir ->
      exists parent name,
        dir = parent ++ "/" /\
        filepath = dir ++ name /\
        occurs slash name = false).
Proof.
  unfold get_executable_directory. split.
  - rewrite <- rfind_none. destruct (rfind filepath slash); split; congruence.
  - intros dir H. destruct (rfind filepath slash) as [i|] eqn:E; [|discriminate].
    injection H as <-.
    destruct (rfind_some _ _ _ E) as [H1 H2].
    exists (substr0 filepath i), (substr filepath (i + 1)).
    rewrite (substr0_through _ _ _ E). repeat split; [|exact H2].
    etransitivity; [exact H1|].
    clear. induction (substr0 filepath i) as [|x s IH]; simpl; congruence.
Qed.

Lemma executable_directory_ends_in_slash_witness :
  exists parent name,
    "/opt/rife/" = parent ++ "/" /\
    "/opt/rife/rife-ncnn-vulkan" = "/opt/rife/" ++ name /\
    occurs slash name = false.
Proof.
  apply (proj2 (executable_directory_ends_in_slash "/opt/rife/rife-ncnn-vulkan")).
  reflexivity.
Defined.

(** ** Ties among names without digits *)

Lemma lex_ltb_total (u : list Z) :
  forall v, lex_ltb u v = false -> lex_ltb v u = false -> u = v.
Proof.
  induction u as [|x u IH]; intros [|y v]; simpl; try congruence.
  rewrite (Z.eqb_sym y x).
  destruct (Z.eqb_spec x y) as [->|N].
  - intros H1 H2. f_equal. now apply IH.
  - rewrite !Z.ltb_ge. lia.
Qed.

Lemma lex_ltb_irrefl (u : list Z) : lex_ltb u u = false.
Proof. induction u as [|x u IH]; simpl; [reflexivity|]. now rewrite Z.eqb_refl. Qed.

(** X15 -- two names without digits tie under the ordering exactly when
    they are case permutations of each other. *)
Theorem digit_free_ties (a b : path_t) :
  digit_free a = true -> digit_free b = true ->
  (equivalent a b <-> case_permutation a b).
Proof.
  intros Fa Fb. unfold equivalent, case_permutation.
  rewrite (compare_digit_free a b Fa Fb),
          (compare_digit_free b a Fb Fa).
  split.
  - intros [H1 H2]. now apply lex_ltb_total.
  - intros ->. split; apply lex_ltb_irrefl.
Qed.

Lemma digit_free_ties_witness :
  equivalent "Readme.MD" "README.md" <-> case_permutation "Readme.MD" "README.md".
Proof. apply digit_free_ties; reflexivity. Defined.

(** ** Bytes above 127 *)

(** [std::toupper] answers a negative [char] with the byte it stands for, so
    a name that starts with such a byte sorts behind the names that start
    with an ASCII character other than a digit (here the two bytes of a
    UTF-8 e-acute against "a" and "z"); the byte 255, which is [EOF] as a
    [char], sorts before them. *)
Example bytes_above_127 :
  let e_acute := String (ascii_of_nat 195) (String (ascii_of_nat 169) ".png") in
  let y_diaeresis := String (ascii_of_nat 255) ".png" in
  compare_path_natural "a.png" e_acute = true /\
  compare_path_natural "z.png" e_acute = true /\
  compare_path_natural e_acute "a.png" = false /\
  compare_path_natural y_diaeresis "a.png" = true.
Proof. repeat split. Qed.

(** ** The lister with the sort of libstdc++ *)

Example list_directory_libstdcxx :
  list_directory frames_only libstdcxx_sort "frames" ["stale.jpg"] =
  (0, ["img1.jpg"; "img2.jpg"; "IMG3.jpg"; "img10.jpg"]).
Proof. vm_compute. reflexivity. Qed.

(** Twenty-four names in descending order: more than [S_threshold], so the
    partition of the introsort is at work. *)
Example libstdcxx_sort_descending :
  libstdcxx_sort compare_path_natural
    [ "f24"; "f23"; "f22"; "f21"; "f20"; "f19"; "f18"; "f17"; "f16"; "f15";
      "f14"; "f13"; "f12"; "f11"; "f10"; "f9"; "f8"; "f7"; "f6"; "f5"; "f4";
      "f3"; "f2"; "f1" ] =
    [ "f1"; "f2"; "f3"; "f4"; "f5"; "f6"; "f7"; "f8"; "f9"; "f10"; "f11";
      "f12"; "f13"; "f14"; "f15"; "f16"; "f17"; "f18"; "f19"; "f20"; "f21";
      "f22"; "f23"; "f24" ].
Proof. vm_compute. reflexivity. Qed.

(** Two tied names stay as they are: the insertion sort that handles up to
    [S_threshold] elements moves an element only past a greater one. *)
Example libstdcxx_sort_two_tied :
  libstdcxx_sort compare_path_natural ["frame1.png"; "frame01.png"] =
  ["frame1.png"; "frame01.png"].
Proof. vm_compute. reflexivity. Qed.
